(** * AInalyst2: incremental chunk/embed/index pipeline and retriever

    A shallow embedding of [incremental_chunk_embed.py] and [query_rag.py]:
    the token-window chunker, the FAISS index / metadata pair with its
    persistence, the incremental builder [update_embeddings] and the
    retriever [retrieve], together with the properties of the design
    document that concern them. *)

From stdpp Require Import base numbers list strings gmap sets.

Local Open Scope Z_scope.

(** ** Python list primitives *)

Module Py.

(** Clamp of one slice bound, as [PySlice_AdjustIndices] does it: a negative
    bound counts from the end and is clamped at 0, a positive one is clamped
    at the length. *)
Definition adjust (len i : Z) : Z :=
  if i <? 0 then Z.max (i + len) 0 else Z.min i len.

(** [l[start:stop]] (step 1). *)
Definition slice {A} (l : list A) (start stop : Z) : list A :=
  let len := Z.of_nat (length l) in
  let lo := adjust len start in
  let hi := adjust len stop in
  if lo <? hi then take (Z.to_nat (hi - lo)) (drop (Z.to_nat lo) l) else [].

(** [l[i]]: a negative index counts from the end; [None] is [IndexError]. *)
Definition index {A} (l : list A) (i : Z) : option A :=
  let len := Z.of_nat (length l) in
  if (0 <=? i) && (i <? len) then l !! Z.to_nat i
  else if (- len <=? i) && (i <? 0) then l !! Z.to_nat (i + len)
  else None.

End Py.

(** ** Outcomes of a call *)

(** The exceptions the modelled code can raise, and the two names of the
    design document's taxonomy ([ConfigurationError], [CorruptState]) that
    no statement of the source raises. *)
Inductive error : Set :=
  | ConfigurationError
  | CorruptState
  | CollaboratorFailure   (* the embedding call raised *)
  | ValueError            (* max() of an empty sequence, ragged array *)
  | IndexError            (* list index out of range *)
  | AssertionError        (* faiss shape checks *)
  | TypeError             (* faiss.write_index on None *)
  | RuntimeError
  | FileNotFoundError
  | NotADirectoryError.

#[global] Instance error_eq_dec : EqDecision error.
Proof. solve_decision. Defined.

(** A call returns, raises, or does not come back. *)
Inductive outcome (A : Type) : Type :=
  | Returns (a : A)
  | Raises (e : error)
  | Diverges.
Arguments Returns {A} a.
Arguments Raises {A} e.
Arguments Diverges {A}.

(** A call that always comes back: it returns or raises. *)
Inductive result (A : Type) : Type :=
  | Ok (a : A)
  | Fails (e : error).
Arguments Ok {A} a.
Arguments Fails {A} e.

(** A step of a loop over a state [S] that outlives an exception (the files
    on disk, the objects mutated so far): it goes on, raises and leaves the
    state as it is at that moment, or does not come back. *)
Inductive step (S : Type) : Type :=
  | Next (s : S)
  | Raised (e : error) (s : S)
  | Hung.
Arguments Next {S} s.
Arguments Raised {S} e s.
Arguments Hung {S}.

(** [for x in l: body], left to right, stopped by the first exception. *)
Fixpoint for_each {S A} (body : S -> A -> step S) (l : list A) (s : S) : step S :=
  match l with
  | [] => Next s
  | x :: l' =>
      match body s x with
      | Next s' => for_each body l' s'
      | Raised e s' => Raised e s'
      | Hung => Hung
      end
  end.

(** [enumerate(l)]. *)
Definition enumerate {A} (l : list A) : list (nat * A) :=
  zip (seq 0 (length l)) l.

(** [max(l)]: [None] is the [ValueError] of an empty sequence. *)
Definition py_max (l : list Z) : option Z :=
  match l with
  | [] => None
  | x :: r => Some (foldl Z.max x r)
  end.

(** [s.endswith(suffix)]. *)
Definition endswith (s suffix : string) : bool :=
  let n := String.length s in
  let k := String.length suffix in
  if (k <=? n)%nat then String.eqb (String.substring (n - k) k s) suffix else false.

(** [str(x)] for a value that is a string or [None]. *)
Definition py_str (x : option string) : string :=
  match x with
  | Some s => s
  | None => "None"%string
  end.

(** First binding of a name in a directory listing. *)
Fixpoint assoc {A} (name : string) (l : list (string * A)) : option A :=
  match l with
  | [] => None
  | (n, a) :: l' => if String.eqb n name then Some a else assoc name l'
  end.

(** ** Chunker *)

Definition token := Z.

Definition CHUNK_SIZE : Z := 1000.
Definition CHUNK_OVERLAP : Z := 200.

(** The [while start < len(tokens)] loop of [chunk_text], on the token list.
    [start] and [chunks] are the loop's two variables; one unit of fuel is
    one evaluation of the loop condition. [None] is "fuel exhausted". *)
Fixpoint chunk_loop (fuel : nat) (tokens : list token) (chunk_size overlap : Z)
    (start : Z) (chunks : list (list token)) : option (list (list token)) :=
  match fuel with
  | O => None
  | S fuel' =>
      let len := Z.of_nat (length tokens) in
      if start <? len then
        let end_ := Z.min (start + chunk_size) len in
        let chunks' := chunks ++ [Py.slice tokens start end_] in
        if end_ =? len then Some chunks'
        else chunk_loop fuel' tokens chunk_size overlap
               (start + (chunk_size - overlap)) chunks'
      else Some chunks
  end.

(** [chunk_text] after [tokenizer.encode] and before [tokenizer.decode]:
    the token windows. The fuel [len + 1] loses nothing: a result reached
    with any fuel is reached with it (see [chunk_tokens_complete]). *)
Definition chunk_tokens (tokens : list token) (chunk_size overlap : Z)
    : option (list (list token)) :=
  chunk_loop (S (length tokens)) tokens chunk_size overlap 0 [].

(** A call of the chunker as an outcome: the source has no [raise], and
    [Diverges] stands for a loop that no fuel brings to an end. *)
Definition chunk_call (tokens : list token) (chunk_size overlap : Z)
    : outcome (list (list token)) :=
  match chunk_tokens tokens chunk_size overlap with
  | Some chunks => Returns chunks
  | None => Diverges
  end.

(** Token positions of the [j]-th window. *)
Definition window_start (chunk_size overlap : Z) (j : nat) : Z :=
  Z.of_nat j * (chunk_size - overlap).
Definition window_end (len chunk_size overlap : Z) (j : nat) : Z :=
  Z.min (window_start chunk_size overlap j + chunk_size) len.

(** The first [m] windows, as the loop appends them. *)
Definition windows (tokens : list token) (chunk_size overlap : Z) (m : nat)
    : list (list token) :=
  (fun j => Py.slice tokens (window_start chunk_size overlap j)
              (window_end (Z.of_nat (length tokens)) chunk_size overlap j))
    <$> seq 0 m.


(** ** Data model *)

(** What the external libraries provide: the component type of the
    embedding vectors (float32), tiktoken's [cl100k_base] encoding, and
    [faiss.normalize_L2] on one row. *)
Class External : Type := {
  float : Type;
  encode : string -> list token;
  decode : list token -> string;
  normalize_L2 : list float -> list float
}.

Section Model.

Context `{E : External}.

(** A filing as [download_filings.py] stored it, read through
    [record.get]: [accession], [form], [url] and [cik] may be absent. *)
Record FilingRecord : Type := mkFiling {
  rec_accession : option string;
  rec_filing_date : string;
  rec_text : string;
  rec_form : option string;
  rec_url : option string;
  rec_cik : option string
}.

(** One element of the metadata list (a dict with these six keys). *)
Record IndexEntry : Type := mkEntry {
  e_id : Z;
  e_ticker : string;
  e_accession : option string;
  e_chunk_index : Z;
  e_filing_date : string;
  e_form : option string
}.

(** The tuple [(ticker, accession, chunk_index)]. *)
Definition ChunkKey : Type := string * option string * Z.

Definition key_of (m : IndexEntry) : ChunkKey :=
  (e_ticker m, e_accession m, e_chunk_index m).

(** [faiss.IndexIDMap(faiss.IndexFlatIP(dims))]: the dimension, and the
    stored ids and rows in insertion order. *)
Record Index : Type := mkIndex {
  dims : nat;
  ids : list Z;
  vectors : list (list float)
}.

Definition ntotal (ix : Index) : nat := length (ids ix).

Definition build_empty_faiss (d : nat) : Index :=
  {| dims := d; ids := []; vectors := [] |}.

(** [index.add_with_ids(arr, new_ids)] for an array of shape [(n, d)]:
    faiss asserts [d == index.d] and [new_ids.shape == (n,)] before it
    stores anything. *)
Definition add_with_ids (ix : Index) (arr : list (list float)) (d : nat)
    (new_ids : list Z) : result Index :=
  if negb (d =? dims ix)%nat then Fails AssertionError
  else if negb (length new_ids =? length arr)%nat then Fails AssertionError
  else Ok {| dims := dims ix;
             ids := ids ix ++ new_ids;
             vectors := vectors ix ++ arr |}.

(** The two persisted artifacts, [INDEX_FILE] and [METADATA_FILE]; [None]
    is "the file does not exist". *)
Record Disk : Type := mkDisk {
  index_file : option Index;
  metadata_file : option (list IndexEntry)
}.

(** [DATA_DIR]: its entries by name; an entry is a ticker directory with
    its files (name and parsed record) or something that is not a
    directory. *)
Inductive DirEntry : Type :=
  | TickerDir (files : list (string * FilingRecord))
  | NotADir.

Definition DataDir : Type := list (string * DirEntry).

(** The embedding service: the number of calls made so far and the texts of
    this call give the vectors, or [None] when the call raises. *)
Definition Embedder : Type := nat -> list string -> option (list (list float)).

Definition BATCH_SIZE : nat := 100.

(** ** Chunker on text *)

Definition chunk_text (text : string) (chunk_size overlap : Z)
    : outcome (list string) :=
  match chunk_call (encode text) chunk_size overlap with
  | Returns chunks => Returns (decode <$> chunks)
  | Raises e => Raises e
  | Diverges => Diverges
  end.

(** ** VectorStore: open, persist, flush *)

(** What [initialize_index] returns. *)
Definition Opened : Type := option Index * list IndexEntry * gset ChunkKey * Z.

Definition initialize_index (d : Disk) : result Opened :=
  match metadata_file d, index_file d with
  | Some metadata, Some index =>
      let existing_keys : gset ChunkKey := list_to_set (key_of <$> metadata) in
      match py_max (e_id <$> metadata) with
      | None => Fails ValueError
      | Some mx => Ok (Some index, metadata, existing_keys, mx + 1)
      end
  | _, _ => Ok (None, [], ∅, 0)
  end.

(** The two writes of [save_index_metadata], each on the file in place. *)
Definition write_index (index : Index) (d : Disk) : Disk :=
  {| index_file := Some index; metadata_file := metadata_file d |}.

Definition write_metadata (metadata : list IndexEntry) (d : Disk) : Disk :=
  {| index_file := index_file d; metadata_file := Some metadata |}.

(** The states of the disk that [save_index_metadata] goes through, one per
    completed write, in order. *)
Definition save_trace (index : option Index) (metadata : list IndexEntry)
    (d : Disk) : list Disk :=
  match index with
  | None => []
  | Some ix => [write_index ix d; write_metadata metadata (write_index ix d)]
  end.

Definition save_index_metadata (index : option Index)
    (metadata : list IndexEntry) (d : Disk) : result Disk :=
  match index with
  | None => Fails TypeError
  | Some ix => Ok (write_metadata metadata (write_index ix d))
  end.

(** [chunks_batch[i:i+BATCH_SIZE] for i in range(0, len(chunks_batch), BATCH_SIZE)]. *)
Definition sub_batches (chunks_batch : list string) : list (list string) :=
  (fun q => Py.slice chunks_batch (Z.of_nat (q * BATCH_SIZE))
              (Z.of_nat (q * BATCH_SIZE) + Z.of_nat BATCH_SIZE))
    <$> seq 0 ((length chunks_batch + BATCH_SIZE - 1) / BATCH_SIZE)%nat.

(** The embedding loop of [process_chunk_batch]: [calls] counts the calls
    of the embedder, the failed one included. *)
Fixpoint embed_loop (embed_texts : Embedder) (calls : nat)
    (batches : list (list string)) (batch_embeddings : list (list float))
    : nat * option (list (list float)) :=
  match batches with
  | [] => (calls, Some batch_embeddings)
  | batch :: rest =>
      match embed_texts calls batch with
      | None => (S calls, None)
      | Some vs => embed_loop embed_texts (S calls) rest (batch_embeddings ++ vs)
      end
  end.

(** The caller's view after a call of [process_chunk_batch]: the calls of
    the embedder so far, the index and the metadata as they are when the
    call returns or raises, and the exception if any. *)
Record Flushed : Type := mkFlushed {
  fr_calls : nat;
  fr_index : option Index;
  fr_metadata : list IndexEntry;
  fr_raised : option error
}.

Definition process_chunk_batch (embed_texts : Embedder) (calls : nat)
    (chunks_batch : list string) (entries_batch : list IndexEntry)
    (index : option Index) (metadata : list IndexEntry) : Flushed :=
  let unchanged c e := mkFlushed c index metadata e in
  match chunks_batch with
  | [] => unchanged calls None
  | _ :: _ =>
      match embed_loop embed_texts calls (sub_batches chunks_batch) [] with
      | (calls', None) => unchanged calls' (Some CollaboratorFailure)
      | (calls', Some batch_embeddings) =>
          match batch_embeddings with
          | [] => unchanged calls' (Some IndexError)
          | first :: _ =>
              let d := length first in
              let index1 :=
                match index with
                | None => build_empty_faiss d
                | Some ix => ix
                end in
              (* np.array(..., dtype='float32') needs rows of one length *)
              if negb (forallb (fun v => (length v =? d)%nat) batch_embeddings)
              then unchanged calls' (Some ValueError)
              else
                let arr := normalize_L2 <$> batch_embeddings in
                let new_ids := e_id <$> entries_batch in
                match add_with_ids index1 arr d new_ids with
                | Ok index2 =>
                    mkFlushed calls' (Some index2) (metadata ++ entries_batch) None
                | Fails e => unchanged calls' (Some e)
                end
          end
      end
  end.

(** ** IncrementalBuilder *)

(** The two integers read from the environment. *)
Record Config : Type := mkConfig {
  MAX_CHUNKS_IN_MEMORY : Z;
  SAVE_PROGRESS_EVERY : Z
}.

(** The local variables of [update_embeddings], the files on disk, and the
    number of calls of the embedder so far. *)
Record BuildState : Type := mkBuild {
  index : option Index;
  metadata : list IndexEntry;
  next_id : Z;
  current_chunks : list string;
  current_entries : list IndexEntry;
  total_new_chunks : Z;
  processed_chunks : Z;
  disk : Disk;
  calls : nat
}.

(** Body of [for idx, chunk in enumerate(chunks)]. *)
Definition stage_chunk (cfg : Config) (embed_texts : Embedder)
    (existing_keys : gset ChunkKey) (ticker : string) (record : FilingRecord)
    (st : BuildState) (ic : nat * string) : step BuildState :=
  let '(idx, chunk) := ic in
  let key : ChunkKey := (ticker, rec_accession record, Z.of_nat idx) in
  if bool_decide (key ∈ existing_keys) then Next st
  else
    let chunks1 := current_chunks st ++ [chunk] in
    let entries1 := current_entries st ++
      [ {| e_id := next_id st;
           e_ticker := ticker;
           e_accession := rec_accession record;
           e_chunk_index := Z.of_nat idx;
           e_filing_date := rec_filing_date record;
           e_form := rec_form record |} ] in
    let next_id1 := next_id st + 1 in
    let total1 := total_new_chunks st + 1 in
    if Z.of_nat (length chunks1) >=? MAX_CHUNKS_IN_MEMORY cfg then
      let fr := process_chunk_batch embed_texts (calls st) chunks1 entries1
                  (index st) (metadata st) in
      match fr_raised fr with
      | Some e =>
          Raised e (mkBuild (fr_index fr) (fr_metadata fr) next_id1 chunks1
                      entries1 total1 (processed_chunks st) (disk st) (fr_calls fr))
      | None =>
          let processed1 := processed_chunks st + Z.of_nat (length chunks1) in
          if processed1 >=? SAVE_PROGRESS_EVERY cfg then
            match save_index_metadata (fr_index fr) (fr_metadata fr) (disk st) with
            | Ok disk1 =>
                Next (mkBuild (fr_index fr) (fr_metadata fr) next_id1 [] []
                        total1 0 disk1 (fr_calls fr))
            | Fails e =>
                Raised e (mkBuild (fr_index fr) (fr_metadata fr) next_id1 [] []
                            total1 processed1 (disk st) (fr_calls fr))
            end
          else
            Next (mkBuild (fr_index fr) (fr_metadata fr) next_id1 [] []
                    total1 processed1 (disk st) (fr_calls fr))
      end
    else
      Next (mkBuild (index st) (metadata st) next_id1 chunks1 entries1 total1
              (processed_chunks st) (disk st) (calls st)).

(** Body of [for fname in os.listdir(tdir)]. *)
Definition process_file (cfg : Config) (embed_texts : Embedder)
    (existing_keys : gset ChunkKey) (ticker : string)
    (st : BuildState) (file : string * FilingRecord) : step BuildState :=
  let '(fname, record) := file in
  if negb (endswith fname ".json") then Next st
  else
    match chunk_text (rec_text record) CHUNK_SIZE CHUNK_OVERLAP with
    | Returns chunks =>
        for_each (stage_chunk cfg embed_texts existing_keys ticker record)
          (enumerate chunks) st
    | Raises e => Raised e st
    | Diverges => Hung
    end.

(** Body of [for ticker in os.listdir(DATA_DIR)]. *)
Definition process_ticker (cfg : Config) (embed_texts : Embedder)
    (existing_keys : gset ChunkKey)
    (st : BuildState) (entry : string * DirEntry) : step BuildState :=
  let '(ticker, node) := entry in
  match node with
  | NotADir => Next st
  | TickerDir files =>
      for_each (process_file cfg embed_texts existing_keys ticker) files st
  end.

(** The state in which the traversal starts; also the state reported when
    [initialize_index] itself raises (nothing loaded). *)
Definition start_state (o : Opened) (d : Disk) : BuildState :=
  let '(index0, metadata0, _, next_id0) := o in
  mkBuild index0 metadata0 next_id0 [] [] 0 0 d 0.

Definition update_embeddings (cfg : Config) (embed_texts : Embedder)
    (data : DataDir) (d : Disk) : step BuildState :=
  match initialize_index d with
  | Fails e => Raised e (start_state (None, [], ∅, 0) d)
  | Ok o =>
      let existing_keys := o.1.2 in
      match for_each (process_ticker cfg embed_texts existing_keys) data
              (start_state o d) with
      | Next st =>
          (* Process remaining chunks *)
          let fr :=
            match current_chunks st with
            | [] => mkFlushed (calls st) (index st) (metadata st) None
            | _ :: _ =>
                process_chunk_batch embed_texts (calls st) (current_chunks st)
                  (current_entries st) (index st) (metadata st)
            end in
          let processed1 :=
            match current_chunks st with
            | [] => processed_chunks st
            | _ :: _ => processed_chunks st + Z.of_nat (length (current_chunks st))
            end in
          match fr_raised fr with
          | Some e =>
              Raised e (mkBuild (fr_index fr) (fr_metadata fr) (next_id st)
                          (current_chunks st) (current_entries st)
                          (total_new_chunks st) (processed_chunks st) (disk st)
                          (fr_calls fr))
          | None =>
              let st1 := mkBuild (fr_index fr) (fr_metadata fr) (next_id st)
                           (current_chunks st) (current_entries st)
                           (total_new_chunks st) processed1 (disk st) (fr_calls fr) in
              if total_new_chunks st =? 0 then Next st1
              else
                match save_index_metadata (fr_index fr) (fr_metadata fr) (disk st) with
                | Ok disk1 =>
                    Next (mkBuild (fr_index fr) (fr_metadata fr) (next_id st)
                            (current_chunks st) (current_entries st)
                            (total_new_chunks st) processed1 disk1 (fr_calls fr))
                | Fails e => Raised e st1
                end
          end
      | Raised e st => Raised e st
      | Hung => Hung
      end
  end.

(** ** Retriever ([query_rag.py]) *)

(** [index.search(arr, k)] of faiss, as the row [ids[0]] paired position by
    position with the row [distances[0]]; faiss pads the row with id -1. *)
Variable index_search : Index -> list float -> Z -> list (Z * float).

(** One element of the list that [retrieve] returns: the copied metadata
    entry with [score], [text] and the record's [form], [url], [cik]. *)
Record Hit : Type := mkHit {
  hit_id : Z;
  hit_ticker : string;
  hit_accession : option string;
  hit_chunk_index : Z;
  hit_filing_date : string;
  hit_score : float;
  hit_text : string;
  hit_form : option string;
  hit_url : option string;
  hit_cik : option string
}.

(** The list [hits], the warnings logged, and (ghost) the positions of
    [metadata] that were read, in order. *)
Record RetrieveState : Type := mkRetrieve {
  hits : list Hit;
  warnings : list (string * option string);
  derefs : list Z
}.

(** [open(os.path.join(DATA_DIR, ticker, f"{accession}.json"))] followed by
    [json.load]. *)
Definition open_filing (data : DataDir) (ticker : string)
    (accession : option string) : result FilingRecord :=
  match assoc ticker data with
  | None => Fails FileNotFoundError
  | Some NotADir => Fails NotADirectoryError
  | Some (TickerDir files) =>
      match assoc (py_str accession ++ ".json")%string files with
      | None => Fails FileNotFoundError
      | Some record => Ok record
      end
  end.

(** Body of [for rank, vid in enumerate(ids[0])]. *)
Definition retrieve_hit (data : DataDir) (metadata : list IndexEntry)
    (st : RetrieveState) (row : Z * float) : step RetrieveState :=
  let '(vid, score) := row in
  if (vid <? 0) || (vid >=? Z.of_nat (length metadata)) then Next st
  else
    match Py.index metadata vid with
    | None => Raised IndexError st
    | Some entry =>
        let st1 := mkRetrieve (hits st) (warnings st) (derefs st ++ [vid]) in
        match open_filing data (e_ticker entry) (e_accession entry) with
        | Fails FileNotFoundError =>
            Next (mkRetrieve (hits st1)
                    (warnings st1 ++ [(e_ticker entry, e_accession entry)])
                    (derefs st1))
        | Fails e => Raised e st1
        | Ok record =>
            match chunk_text (rec_text record) CHUNK_SIZE CHUNK_OVERLAP with
            | Returns chunks =>
                match Py.index chunks (e_chunk_index entry) with
                | None => Raised IndexError st1
                | Some text =>
                    let hit :=
                      {| hit_id := e_id entry;
                         hit_ticker := e_ticker entry;
                         hit_accession := e_accession entry;
                         hit_chunk_index := e_chunk_index entry;
                         hit_filing_date := e_filing_date entry;
                         hit_score := score;
                         hit_text := text;
                         hit_form := rec_form record;
                         hit_url := rec_url record;
                         hit_cik := rec_cik record |} in
                    Next (mkRetrieve (hits st1 ++ [hit]) (warnings st1) (derefs st1))
                end
            | Raises e => Raised e st1
            | Diverges => Hung
            end
        end
    end.

Definition retrieve_hits (data : DataDir) (metadata : list IndexEntry)
    (rows : list (Z * float)) : step RetrieveState :=
  for_each (retrieve_hit data metadata) rows (mkRetrieve [] [] []).

Definition retrieve (embed_texts : Embedder) (data : DataDir) (d : Disk)
    (query : string) (k : Z) : step RetrieveState :=
  match metadata_file d, index_file d with
  | Some metadata, Some index =>
      match embed_texts O [query] with
      | None => Raised CollaboratorFailure (mkRetrieve [] [] [])
      | Some [] => Raised IndexError (mkRetrieve [] [] [])
      | Some (q_emb :: _) =>
          let arr := normalize_L2 q_emb in
          retrieve_hits data metadata (index_search index arr k)
      end
  | _, _ => Raised RuntimeError (mkRetrieve [] [] [])
  end.

(** [load_chunk_text] of [incremental_chunk_embed.py], which [answer_rag]
    calls on each hit: the same rehydration without a handler. *)
Definition load_chunk_text (data : DataDir) (entry : IndexEntry) : outcome string :=
  match open_filing data (e_ticker entry) (e_accession entry) with
  | Fails e => Raises e
  | Ok record =>
      match chunk_text (rec_text record) CHUNK_SIZE CHUNK_OVERLAP with
      | Returns chunks =>
          match Py.index chunks (e_chunk_index entry) with
          | None => Raises IndexError
          | Some text => Returns text
          end
      | Raises e => Raises e
      | Diverges => Diverges
      end
  end.

(** ** Derived notions used in the statements *)

Definition index_ids (index : option Index) : list Z :=
  match index with
  | None => []
  | Some ix => ids ix
  end.

(** The ids stored in the index are the ids of the metadata entries. *)
Definition consistent (index : option Index) (metadata : list IndexEntry) : Prop :=
  forall i : Z, i ∈ index_ids index <-> i ∈ e_id <$> metadata.

(** The persisted pair, when both files exist, is consistent. *)
Definition disk_consistent (d : Disk) : Prop :=
  match index_file d, metadata_file d with
  | Some ix, Some metadata => consistent (Some ix) metadata
  | _, _ => True
  end.

(** The loaded index and metadata disagree on the number of entries or on
    the largest id. *)
Definition store_disagrees (ix : Index) (metadata : list IndexEntry) : Prop :=
  ntotal ix <> length metadata \/ py_max (ids ix) <> py_max (e_id <$> metadata).

(** All-or-nothing view of a write of [(index, metadata)] over [d]: an
    observer sees the old pair or the new pair. *)
Definition old_or_new (index : Index) (metadata : list IndexEntry)
    (d observed : Disk) : Prop :=
  observed = d \/ observed = mkDisk (Some index) (Some metadata).

(** The entries that a traversal stages, with ids counted from [nid]:
    [f nid x] are the entries for the element [x]. *)
Fixpoint thread {A} (f : Z -> A -> list IndexEntry) (nid : Z) (l : list A)
    : list IndexEntry :=
  match l with
  | [] => []
  | x :: l' =>
      let E := f nid x in
      E ++ thread f (nid + Z.of_nat (length E)) l'
  end.

Definition chunk_entries (existing_keys : gset ChunkKey) (ticker : string)
    (record : FilingRecord) (nid : Z) (ic : nat * string) : list IndexEntry :=
  if bool_decide ((ticker, rec_accession record, Z.of_nat ic.1) ∈ existing_keys)
  then []
  else [ {| e_id := nid;
            e_ticker := ticker;
            e_accession := rec_accession record;
            e_chunk_index := Z.of_nat ic.1;
            e_filing_date := rec_filing_date record;
            e_form := rec_form record |} ].

Definition file_entries (existing_keys : gset ChunkKey) (ticker : string)
    (nid : Z) (file : string * FilingRecord) : list IndexEntry :=
  if negb (endswith file.1 ".json") then []
  else
    match chunk_text (rec_text file.2) CHUNK_SIZE CHUNK_OVERLAP with
    | Returns chunks =>
        thread (chunk_entries existing_keys ticker file.2) nid (enumerate chunks)
    | _ => []
    end.

Definition ticker_entries (existing_keys : gset ChunkKey)
    (nid : Z) (entry : string * DirEntry) : list IndexEntry :=
  match entry.2 with
  | NotADir => []
  | TickerDir files => thread (file_entries existing_keys entry.1) nid files
  end.

(** The entries that one run over [data] stages, in order: one for each
    chunk of the corpus whose key is not in [existing_keys]. *)
Definition data_entries (existing_keys : gset ChunkKey) (nid : Z)
    (data : DataDir) : list IndexEntry :=
  thread (ticker_entries existing_keys) nid data.

(** The keys of all chunks of the corpus, in traversal order. *)
Definition corpus_keys (data : DataDir) : list ChunkKey :=
  key_of <$> data_entries ∅ 0 data.




(** The entries staged since the store was opened with the metadata
    [metadata0]: flushed ones first, then those waiting in the batch. *)
Definition staged (metadata0 : list IndexEntry) (st : BuildState) : list IndexEntry :=
  drop (length metadata0) (metadata st ++ current_entries st).

(** Invariant of the traversal of [update_embeddings], relative to what
    [initialize_index] loaded ([metadata0], the index ids [ids0], [nid0])
    and to the disk [disk0] at that time: the flushed entries [F] extend
    metadata and index together, the counters count the staged entries, the
    two batch lists go together, and the disk is as it was or holds a
    prefix of the flushed entries in both artifacts. *)
Definition run_inv (metadata0 : list IndexEntry) (ids0 : list Z) (nid0 : Z)
    (disk0 : Disk) (st : BuildState) : Prop :=
  exists F : list IndexEntry,
    metadata st = metadata0 ++ F /\
    index_ids (index st) = ids0 ++ (e_id <$> F) /\
    next_id st = nid0 + Z.of_nat (length (F ++ current_entries st)) /\
    total_new_chunks st = Z.of_nat (length (F ++ current_entries st)) /\
    length (current_chunks st) = length (current_entries st) /\
    (disk st = disk0 \/
     exists ix n,
       disk st = mkDisk (Some ix) (Some (metadata0 ++ take n F)) /\
       ids ix = ids0 ++ (e_id <$> take n F)).

(** The invariant of the design document on a state of the builder. *)
Definition store_inv (st : BuildState) : Prop :=
  consistent (index st) (metadata st) /\ disk_consistent (disk st).

End Model.

(** ** Concrete values for the examples *)

(** A stand-in tokenizer with one token per character. *)
Definition byte_encode (s : string) : list token :=
  (fun a => Z.of_nat (Ascii.nat_of_ascii a)) <$> String.list_ascii_of_string s.

Definition byte_decode (l : list token) : string :=
  String.string_of_list_ascii ((fun t => Ascii.ascii_of_nat (Z.to_nat t)) <$> l).

(** Integer components and no rescaling stand for float32 and
    [normalize_L2]. *)
Definition example_external : External :=
  {| float := Z;
     encode := byte_encode;
     decode := byte_decode;
     normalize_L2 := fun v => v |}.

Module Example.

#[local] Existing Instance example_external.

Definition filing (accession text : string) : FilingRecord :=
  mkFiling (Some accession) "2024-01-31" text (Some "10-K"%string)
    (Some "https://www.sec.gov/"%string) (Some "0000320193"%string).

(** Two filings of one ticker, a file that is not JSON, and a stray file
    next to the ticker directories. *)
Definition data : DataDir :=
  [ ("AAPL"%string,
     TickerDir [ ("0001.json"%string, filing "0001" "net sales rose");
                 ("notes.txt"%string, filing "none" "ignored");
                 ("0002.json"%string, filing "0002" "services grew") ]);
    (".DS_Store"%string, NotADir) ].

Definition entry (id : Z) (accession : string) : IndexEntry :=
  mkEntry id "AAPL" (Some accession) 0 "2024-01-31" (Some "10-K"%string).

Definition no_files : Disk := mkDisk None None.

(** An index with two vectors next to a metadata list with one entry. *)
Definition mismatched_disk : Disk :=
  mkDisk (Some (mkIndex 2 [0; 1] [[1; 0]; [0; 1]])) (Some [entry 0 "0001"]).

(** A store with one vector, and the store after one more was added. *)
Definition index_one : Index := mkIndex 2 [0] [[1; 0]].
Definition index_two : Index := mkIndex 2 [0; 1] [[1; 0]; [0; 1]].
Definition disk_one : Disk := mkDisk (Some index_one) (Some [entry 0 "0001"]).

(** Flush after every chunk, persist after every flush. *)
Definition eager : Config := mkConfig 1 1.

(** Flush every two chunks. *)
Definition pairs : Config := mkConfig 2 2.

(** An embedder that answers every call, one whose second call fails, and
    one that is down. *)
Definition embed_ok : Embedder := fun _ texts => Some ((fun _ => [1; 0]) <$> texts).
Definition embed_fails_second : Embedder :=
  fun n texts => if (n =? 1)%nat then None else embed_ok n texts.
Definition embed_down : Embedder := fun _ _ => None.

(** Metadata whose second entry points to a filing that is not on disk. *)
Definition metadata_with_gap : list IndexEntry :=
  [entry 0 "0001"; entry 1 "0009"; entry 2 "0002"].

(** The rows of a search: a padding row with id -1, an id beyond the
    metadata, and stored ids. *)
Definition search_rows : list (Z * float) :=
  [(1, 9); (-1, 0); (5, 8); (2, 7); (0, 6)].
Definition search_rows_short : list (Z * float) :=
  [(1, 9); (-1, 0); (5, 8); (0, 6)].

(** A search that returns the stored ids, last first, and one padding
    row. *)
Definition search : Index -> list float -> Z -> list (Z * float) :=
  fun ix _ _ => ((fun vid => (vid, 1)) <$> reverse (ids ix)) ++ [(-1, 0)].

End Example.

(** ** Further notions for the properties of the builder *)

Section ModelMore.

Context `{E : External}.

(** The largest batch the traversal ever holds: [MAX_CHUNKS_IN_MEMORY], or
    one chunk when that setting is below one. *)
Definition batch_bound (cfg : Config) : Z := Z.max 1 (MAX_CHUNKS_IN_MEMORY cfg).

(** The largest number of flushed entries that wait for a persist. *)
Definition checkpoint_bound (cfg : Config) : Z := Z.max 1 (SAVE_PROGRESS_EVERY cfg).

(** Invariant of the traversal on what a persist has not yet written: the
    metadata in memory is the loaded metadata and the flushed entries [F];
    the first [n] of them are on disk, the others are counted by
    [processed_chunks], below the checkpoint bound. *)
Definition checkpoint_inv (cfg : Config) (metadata0 : list IndexEntry)
    (disk0 : Disk) (st : BuildState) : Prop :=
  exists (F : list IndexEntry) (n : nat),
    metadata st = metadata0 ++ F /\
    (n <= length F)%nat /\
    processed_chunks st = Z.of_nat (length F) - Z.of_nat n /\
    processed_chunks st < checkpoint_bound cfg /\
    length (current_chunks st) = length (current_entries st) /\
    (disk st = disk0 /\ n = 0%nat \/
     (0 < n)%nat /\
     exists ix, disk st = mkDisk (Some ix) (Some (metadata0 ++ take n F))).

End ModelMore.

(** ** The corpus as [download_filings.py] writes it *)

Section Corpus.

Context `{E : External}.

(** A ticker directory as [download_filings.py] fills it: every record is
    stored under [f"{acc}.json"] next to its ["accession": acc], the
    Company Facts record under [f"{ticker}_CF.json"] with accession
    [f"{ticker}_CF"]; the names of a directory listing are distinct. *)
Definition filed_by_accession (files : list (string * FilingRecord)) : bool :=
  bool_decide (NoDup files.*1) &&
  forallb (fun file : string * FilingRecord =>
             implb (endswith file.1 ".json")
               (String.eqb file.1 (py_str (rec_accession file.2) ++ ".json")))
    files.

Definition corpus_well_formed (data : DataDir) : bool :=
  bool_decide (NoDup data.*1) &&
  forallb (fun entry : string * DirEntry =>
             match entry.2 with
             | NotADir => true
             | TickerDir files => filed_by_accession files
             end)
    data.

(** The rows of a search whose id is a position of the metadata. *)
Definition in_range (metadata : list IndexEntry) (row : Z * float) : bool :=
  negb ((row.1 <? 0) || (row.1 >=? Z.of_nat (length metadata))).


End Corpus.

(** ** Putting chunks back together *)

(** The first chunk followed by what each later chunk adds after its first
    [overlap] tokens. *)
Definition stitch (overlap : Z) (chunks : list (list token)) : list token :=
  match chunks with
  | [] => []
  | c :: rest => c ++ concat (drop (Z.to_nat overlap) <$> rest)
  end.

(** The number of windows for [len] tokens:
    [ceil(max(0, len - chunk_size) / step) + 1], and none without tokens. *)
Definition chunk_count (len chunk_size overlap : Z) : Z :=
  if len =? 0 then 0
  else (Z.max 0 (len - chunk_size) + (chunk_size - overlap) - 1)
         / (chunk_size - overlap) + 1.

(** ** Answering a question *)

(** The chat completion call, on the model name, the system message and the
    user message: the content of the first choice, or [None] when the call
    raises. *)
Definition ChatModel : Type := string -> string -> string -> option string.

(** ["\n"], the character of code 10. *)
Definition nl : string :=
  String (Ascii.Ascii false true false true false false false false) EmptyString.

(** [sep.join(l)]. *)
Fixpoint join (sep : string) (l : list string) : string :=
  match l with
  | [] => ""
  | [x] => x
  | x :: rest => (x ++ sep ++ join sep rest)%string
  end.

(** ["\n\n---\n\n"]. *)
Definition context_separator : string := (nl ++ nl ++ "---" ++ nl ++ nl)%string.

(** *** [incremental_chunk_embed.py] *)

Module IncrementalChunkEmbed.

Section Retrieve.

Context `{E : External}.

Variable index_search : Index -> list float -> Z -> list (Z * float).

(** [for vid in ids[0]] of [retrieve]: only negative ids are skipped, and
    [metadata[vid]] is read for every other one. *)
Fixpoint retrieve_loop (metadata : list IndexEntry) (ids : list Z)
    (hits : list IndexEntry) : result (list IndexEntry) :=
  match ids with
  | [] => Ok hits
  | vid :: rest =>
      if vid <? 0 then retrieve_loop metadata rest hits
      else
        match Py.index metadata vid with
        | None => Fails IndexError
        | Some m => retrieve_loop metadata rest (hits ++ [m])
        end
  end.

(** [retrieve(query, k)]: the metadata file is opened first, then the index
    is read, the query embedded and normalized, the index searched. *)
Definition retrieve (embed_texts : Embedder) (d : Disk) (query : string) (k : Z)
    : result (list IndexEntry) :=
  match metadata_file d with
  | None => Fails FileNotFoundError
  | Some metadata =>
      match index_file d with
      | None => Fails RuntimeError
      | Some index =>
          match embed_texts O [query] with
          | None => Fails CollaboratorFailure
          | Some [] => Fails IndexError
          | Some (q_emb :: _) =>
              let arr := normalize_L2 q_emb in
              retrieve_loop metadata (index_search index arr k).*1 []
          end
      end
  end.

(** [[load_chunk_text(h) for h in hits]]: the first exception ends the
    comprehension. *)
Fixpoint load_contexts (data : DataDir) (hits : list IndexEntry)
    : outcome (list string) :=
  match hits with
  | [] => Returns []
  | h :: rest =>
      match load_chunk_text data h with
      | Returns text =>
          match load_contexts data rest with
          | Returns texts => Returns (text :: texts)
          | Raises e => Raises e
          | Diverges => Diverges
          end
      | Raises e => Raises e
      | Diverges => Diverges
      end
  end.

(** [answer_rag(query, k)], with the number of calls of the chat model. *)
Definition answer_rag (chat : ChatModel) (embed_texts : Embedder)
    (data : DataDir) (d : Disk) (query : string) (k : Z) : outcome string * nat :=
  match retrieve embed_texts d query k with
  | Fails e => (Raises e, O)
  | Ok hits =>
      match load_contexts data hits with
      | Returns contexts =>
          let context_blob := join context_separator contexts in
          match chat "gpt-3.5-turbo" "You are a financial assistant."
                  ("Context:" ++ nl ++ context_blob ++ nl ++ nl ++ "Q: " ++ query)%string with
          | Some content => (Returns content, 1%nat)
          | None => (Raises CollaboratorFailure, 1%nat)
          end
      | Raises e => (Raises e, O)
      | Diverges => (Diverges, O)
      end
  end.

End Retrieve.

End IncrementalChunkEmbed.

(** *** [api/app.py] *)

Module Api.

Section Ask.

Context `{E : External}.

Variable index_search : Index -> list float -> Z -> list (Z * float).

(** Validation of a string as pydantic's [HttpUrl]. *)
Variable http_url : string -> bool.

Record AskRequest : Type := mkAsk {
  query : string;
  k : Z;
  api_key : string;
  chat_model : string
}.

Record ContextItem : Type := mkContext {
  ticker : string;
  accession : string;
  chunk_index : Z;
  filing_date : string;
  score : float;
  text : string;
  form : string;
  cik : string;
  url : string
}.

(** A [ContextItem] built from the keys of a hit: [accession], [form], [cik] and [url] must be
    strings, [url] a valid one; [None] is pydantic's [ValidationError]. *)
Definition context_item (h : Hit) : option ContextItem :=
  match hit_accession h, hit_form h, hit_cik h, hit_url h with
  | Some a, Some f, Some c, Some u =>
      if http_url u then
        Some (mkContext (hit_ticker h) a (hit_chunk_index h) (hit_filing_date h)
                (hit_score h) (hit_text h) f c u)
      else None
  | _, _, _, _ => None
  end.

(** What a call of [ask] comes to. *)
Inductive Reply : Type :=
  | AskResponse (answer : string) (context : list ContextItem)
  | HTTPException (status_code : Z) (detail : string)
  | ValidationError
  | Uncaught (e : error)
  | NoReply.

Definition system_prompt : string :=
  "You are a helpful financial assistant, you only answer question regarding finance, your name is AInalyst.".

(** [ask(req)], with the number of calls of the chat model. *)
Definition ask (chat : ChatModel) (embed_texts : Embedder) (data : DataDir)
    (d : Disk) (req : AskRequest) : Reply * nat :=
  match retrieve index_search embed_texts data d (query req) (k req) with
  | Raised e _ => (Uncaught e, O)
  | Hung => (NoReply, O)
  | Next rs =>
      match hits rs with
      | [] => (HTTPException 404 "No relevant chunks found.", O)
      | _ :: _ =>
          let context_blob := join context_separator (hit_text <$> hits rs) in
          match chat (chat_model req) system_prompt
                  ("Context:" ++ nl ++ context_blob ++ nl ++ nl ++ "Question: "
                     ++ query req)%string with
          | None => (Uncaught CollaboratorFailure, 1%nat)
          | Some answer =>
              match mapM context_item (hits rs) with
              | Some context => (AskResponse answer context, 1%nat)
              | None => (ValidationError, 1%nat)
              end
          end
      end
  end.

End Ask.

End Api.

(** * Proofs *)

Section Proofs.

Context `{E : External}.
(** ** Lemmas on slices *)

Lemma slice_in_range {A} (l : list A) (lo hi : Z) :
  0 <= lo -> lo <= hi -> hi <= Z.of_nat (length l) ->
  Py.slice l lo hi = take (Z.to_nat (hi - lo)) (drop (Z.to_nat lo) l).
Proof.
  intros H0 H1 H2. unfold Py.slice, Py.adjust.
  destruct (Z.ltb_spec lo 0); [lia|].
  destruct (Z.ltb_spec hi 0); [lia|].
  rewrite !Z.min_l by lia.
  destruct (Z.ltb_spec lo hi); [done|].
  replace (hi - lo) with 0 by lia. done.
Qed.

Lemma slice_length {A} (l : list A) (lo hi : Z) :
  0 <= lo -> lo <= hi -> hi <= Z.of_nat (length l) ->
  Z.of_nat (length (Py.slice l lo hi)) = hi - lo.
Proof.
  intros H0 H1 H2. rewrite slice_in_range by done.
  rewrite length_take, length_drop. lia.
Qed.


Lemma windows_S tokens cs ov m :
  windows tokens cs ov (S m) =
  windows tokens cs ov m ++
    [Py.slice tokens (window_start cs ov m)
       (window_end (Z.of_nat (length tokens)) cs ov m)].
Proof. unfold windows. rewrite seq_S, fmap_app. done. Qed.

Lemma windows_length tokens cs ov m : length (windows tokens cs ov m) = m.
Proof. unfold windows. rewrite length_fmap, length_seq. done. Qed.

Lemma windows_lookup tokens cs ov m j :
  (j < m)%nat ->
  windows tokens cs ov m !! j =
  Some (Py.slice tokens (window_start cs ov j)
          (window_end (Z.of_nat (length tokens)) cs ov j)).
Proof.
  intros Hj. unfold windows. rewrite list_lookup_fmap, lookup_seq_lt by done.
  done.
Qed.

(** Invariant of the loop when [0 <= overlap < chunk_size]: entering the
    iteration number [j] the accumulator holds the first [j] windows, none
    of which reached the end of the tokens. The loop then stops after some
    [m >= j] windows, the last of which ends at the token count. *)
Lemma chunk_loop_windows tokens cs ov :
  0 <= ov < cs ->
  forall (fuel j : nat),
    (Z.of_nat (length tokens) < Z.of_nat fuel + Z.of_nat j)%Z ->
    (j = 0%nat \/ window_start cs ov (pred j) + cs < Z.of_nat (length tokens)) ->
    exists m : nat,
      (j <= m)%nat /\
      chunk_loop fuel tokens cs ov (window_start cs ov j) (windows tokens cs ov j)
        = Some (windows tokens cs ov m) /\
      (tokens = [] -> m = 0%nat) /\
      (tokens <> [] -> (0 < m)%nat /\
         window_end (Z.of_nat (length tokens)) cs ov (pred m)
           = Z.of_nat (length tokens)) /\
      (forall i, (S i < m)%nat ->
         window_start cs ov i + cs < Z.of_nat (length tokens)).
Proof.
  intros Hcfg. induction fuel as [|fuel IH]; intros j Hfuel Hprev.
  - (* no fuel: the bound on [j] contradicts the progress of the windows *)
    exfalso. destruct Hprev as [->|Hprev]; [lia|].
    destruct j as [|j]; [lia|]. simpl in Hprev.
    unfold window_start in Hprev. nia.
  - simpl. set (len := Z.of_nat (length tokens)) in *.
    destruct (Z.ltb_spec (window_start cs ov j) len) as [Hlt|Hge].
    + destruct (Z.eqb_spec (Z.min (window_start cs ov j + cs) len) len) as [Hend|Hend].
      * exists (S j). split; [lia|]. split.
        { rewrite windows_S. done. }
        split.
        { intros ->. simpl in len. unfold window_start in Hlt. subst len. nia. }
        split.
        { intros _. split; [lia|]. simpl. done. }
        intros i Hi.
        destruct Hprev as [->|Hprev]; [lia|].
        destruct j as [|j]; [lia|]. simpl in Hprev.
        unfold window_start in *. nia.
      * assert (Hnext : window_start cs ov j + (cs - ov) = window_start cs ov (S j)).
        { unfold window_start. lia. }
        rewrite Hnext.
        change (Z.min (window_start cs ov j + cs) len) with (window_end len cs ov j).
        rewrite <- windows_S.
        destruct (IH (S j)) as (m & Hm & Hrun & Hnil & Hne & Hfull).
        { lia. }
        { right. simpl. lia. }
        exists m. split; [lia|]. done.
    + (* the condition fails: only possible before the first window *)
      destruct Hprev as [->|Hprev].
      * exists 0%nat. split; [lia|]. split; [done|].
        split; [done|]. split.
        { intros Hne. exfalso. unfold window_start in Hge. subst len.
          destruct tokens; [done|]. simpl in Hge. lia. }
        intros i Hi. lia.
      * exfalso. destruct j as [|j]; [unfold window_start in *; lia|].
        simpl in Hprev. unfold window_start in *. nia.
Qed.

Lemma chunk_loop_fuel_mono tokens cs ov :
  forall (fuel fuel' : nat) start chunks r,
    (fuel <= fuel')%nat ->
    chunk_loop fuel tokens cs ov start chunks = Some r ->
    chunk_loop fuel' tokens cs ov start chunks = Some r.
Proof.
  induction fuel as [|fuel IH]; intros fuel' start chunks r Hle Hrun; [done|].
  destruct fuel' as [|fuel']; [lia|]. simpl in *.
  destruct (start <? Z.of_nat (length tokens)); [|done].
  destruct (Z.min (start + cs) (Z.of_nat (length tokens)) =? Z.of_nat (length tokens));
    [done|].
  apply IH; [lia|done].
Qed.

(** With [overlap >= chunk_size] the window does not advance: once a window
    stops short of the token count, the loop condition holds for ever. *)
Lemma chunk_loop_stuck tokens cs ov :
  cs <= ov ->
  forall (fuel : nat) start chunks,
    start < Z.of_nat (length tokens) ->
    start + cs < Z.of_nat (length tokens) ->
    chunk_loop fuel tokens cs ov start chunks = None.
Proof.
  intros Hcfg. induction fuel as [|fuel IH]; intros start chunks H1 H2; [done|].
  simpl. destruct (Z.ltb_spec start (Z.of_nat (length tokens))); [|lia].
  rewrite Z.min_l by lia.
  destruct (Z.eqb_spec (start + cs) (Z.of_nat (length tokens))); [lia|].
  apply IH; lia.
Qed.

Lemma chunk_tokens_windows tokens cs ov :
  0 <= ov < cs ->
  exists m : nat,
    chunk_tokens tokens cs ov = Some (windows tokens cs ov m) /\
    (tokens = [] -> m = 0%nat) /\
    (tokens <> [] -> (0 < m)%nat /\
       window_end (Z.of_nat (length tokens)) cs ov (pred m)
         = Z.of_nat (length tokens)) /\
    (forall i, (S i < m)%nat ->
       window_start cs ov i + cs < Z.of_nat (length tokens)).
Proof.
  intros Hcfg.
  destruct (chunk_loop_windows tokens cs ov Hcfg (S (length tokens)) 0)
    as (m & _ & Hrun & Hrest); [lia|by left|].
  exists m. split; [exact Hrun|exact Hrest].
Qed.

(** Bounds of a window that the loop produced. *)
Lemma window_bounds (tokens : list token) cs ov m j :
  0 <= ov < cs ->
  tokens <> [] ->
  (0 < m)%nat ->
  window_end (Z.of_nat (length tokens)) cs ov (pred m) = Z.of_nat (length tokens) ->
  (forall i, (S i < m)%nat -> window_start cs ov i + cs < Z.of_nat (length tokens)) ->
  (j < m)%nat ->
  0 <= window_start cs ov j /\
  window_start cs ov j < window_end (Z.of_nat (length tokens)) cs ov j /\
  window_end (Z.of_nat (length tokens)) cs ov j <= Z.of_nat (length tokens) /\
  window_end (Z.of_nat (length tokens)) cs ov j - window_start cs ov j <= cs.
Proof.
  intros Hcfg Hne Hm Hlast Hfull Hj.
  assert (Hlen : 0 < Z.of_nat (length tokens)).
  { destruct tokens; [done|]. simpl. lia. }
  assert (Hs : window_start cs ov j < Z.of_nat (length tokens)).
  { destruct j as [|j].
    - unfold window_start. lia.
    - specialize (Hfull j ltac:(lia)). unfold window_start in *.
      rewrite Nat2Z.inj_succ. lia. }
  assert (H0 : 0 <= window_start cs ov j) by (unfold window_start; nia).
  unfold window_end. lia.
Qed.

(** When the window advances, the loop comes back within one condition
    check per remaining token, whatever the window size. *)
Lemma chunk_loop_advancing tokens cs ov :
  ov < cs ->
  forall (fuel : nat) start chunks,
    (0 < fuel)%nat ->
    Z.of_nat (length tokens) - start < Z.of_nat fuel ->
    exists r, chunk_loop fuel tokens cs ov start chunks = Some r.
Proof.
  intros Hcfg. induction fuel as [|fuel IH]; intros start chunks Hpos Hfuel; [lia|].
  simpl. destruct (Z.ltb_spec start (Z.of_nat (length tokens))); [|eauto].
  destruct (_ =? _); [eauto|]. apply IH; lia.
Qed.

(** The fuel of [chunk_tokens] loses nothing: a result reached with any
    fuel is reached with [len + 1]. *)
Lemma chunk_tokens_complete tokens cs ov fuel r :
  chunk_loop fuel tokens cs ov 0 [] = Some r ->
  chunk_tokens tokens cs ov = Some r.
Proof.
  intros Hrun. unfold chunk_tokens.
  destruct (Z.lt_ge_cases ov cs) as [Hadv|Hstuck].
  - destruct (chunk_loop_advancing tokens cs ov Hadv (S (length tokens)) 0 [])
      as [r' Hr']; [lia|lia|].
    rewrite Hr'. f_equal.
    destruct (Nat.le_ge_cases fuel (S (length tokens))) as [Hle|Hle].
    + pose proof (chunk_loop_fuel_mono _ _ _ _ _ _ _ _ Hle Hrun). congruence.
    + pose proof (chunk_loop_fuel_mono _ _ _ _ _ _ _ _ Hle Hr'). congruence.
  - destruct fuel as [|fuel]; [done|]. simpl in *.
    destruct (Z.ltb_spec 0 (Z.of_nat (length tokens))); [|done].
    destruct (Z.eqb_spec (Z.min (0 + cs) (Z.of_nat (length tokens)))
                (Z.of_nat (length tokens))); [done|].
    rewrite chunk_loop_stuck in Hrun by lia. done.
Qed.

(** With the canonical configuration, and with any [0 <= overlap <
    chunk_size], the chunker returns. *)
Lemma chunk_text_returns text cs ov :
  0 <= ov < cs ->
  exists m, chunk_text text cs ov = Returns (decode <$> windows (encode text) cs ov m).
Proof.
  intros Hcfg. destruct (chunk_tokens_windows (encode text) cs ov Hcfg) as (m & Hrun & _).
  exists m. unfold chunk_text, chunk_call. rewrite Hrun. done.
Qed.

Lemma chunk_text_default text :
  exists chunks, chunk_text text CHUNK_SIZE CHUNK_OVERLAP = Returns chunks.
Proof.
  destruct (chunk_text_returns text CHUNK_SIZE CHUNK_OVERLAP) as (m & Hm).
  { unfold CHUNK_SIZE, CHUNK_OVERLAP. lia. }
  eauto.
Qed.




(** With [overlap >= chunk_size] and more tokens than one window holds the
    loop has no exit. *)
Lemma chunk_loop_no_exit (tokens : list token) cs ov fuel :
  cs <= ov -> 0 < cs < Z.of_nat (length tokens) ->
  chunk_loop fuel tokens cs ov 0 [] = None.
Proof. intros Hcfg Hlen. apply chunk_loop_stuck; lia. Qed.


(** ** Opening and persisting the store *)

Lemma foldl_max_spec (r : list Z) : forall x,
  (foldl Z.max x r = x \/ foldl Z.max x r ∈ r) /\
  x <= foldl Z.max x r /\
  (forall i, i ∈ r -> i <= foldl Z.max x r).
Proof.
  induction r as [|y r IH]; intros x; simpl.
  - split; [by left|]. split; [lia|]. intros i Hi. by apply elem_of_nil in Hi.
  - destruct (IH (Z.max x y)) as (Hin & Hle & Hall).
    split.
    { destruct Hin as [Heq|Hin].
      - destruct (Z.max_spec x y) as [[_ Hm]|[_ Hm]].
        + right. rewrite Heq, Hm. apply list_elem_of_here.
        + left. rewrite Heq, Hm. done.
      - right. by apply list_elem_of_further. }
    split; [lia|].
    intros i Hi. apply elem_of_cons in Hi as [->|Hi]; [lia|by apply Hall].
Qed.

(** [max] returns an element that bounds all the others. *)
Lemma py_max_spec (l : list Z) mx :
  py_max l = Some mx -> mx ∈ l /\ forall i, i ∈ l -> i <= mx.
Proof.
  destruct l as [|x r]; [done|]. simpl. intros [= <-].
  destruct (foldl_max_spec r x) as (Hin & Hle & Hall). split.
  - destruct Hin as [->|Hin]; [apply list_elem_of_here|by apply list_elem_of_further].
  - intros i Hi. apply elem_of_cons in Hi as [->|Hi]; [lia|by apply Hall].
Qed.

(** C1, as the code has it: [initialize_index] compares nothing. When both
    files exist and the metadata list is not empty it returns the loaded
    index and the loaded metadata as they are, the key set of the metadata,
    and as [next_id] one more than the largest metadata id (an id of the
    list that bounds all the others), whether or not index and metadata
    agree; it never raises [CorruptState]. *)
Theorem initialize_index_unchecked (d : Disk) (ix : Index)
    (loaded : list IndexEntry) :
  index_file d = Some ix ->
  metadata_file d = Some loaded ->
  loaded <> [] ->
  initialize_index d <> Fails CorruptState /\
  exists mx,
    initialize_index d
      = Ok (Some ix, loaded, list_to_set (key_of <$> loaded), mx + 1) /\
    mx ∈ e_id <$> loaded /\
    (forall m, m ∈ loaded -> e_id m <= mx).
Proof.
  intros Hix Hmeta Hne. unfold initialize_index. rewrite Hix, Hmeta.
  destruct (py_max (e_id <$> loaded)) as [mx|] eqn:Hmax.
  - split; [done|]. exists mx. split; [done|].
    destruct (py_max_spec _ _ Hmax) as (Hin & Hall). split; [done|].
    intros m Hm. apply Hall. apply list_elem_of_fmap. eauto.
  - destruct loaded; done.
Qed.

(** C6, as the code has it: [save_index_metadata] writes the index file in
    place and then the metadata file in place. The disk goes through the
    state "new index, previous metadata" and ends with both artifacts equal
    to the arguments; the intermediate state is the old pair or the new
    pair only when one of the two writes changes nothing. *)
Theorem save_index_metadata_two_writes (ix : Index)
    (new_metadata : list IndexEntry) (d : Disk) :
  save_trace (Some ix) new_metadata d
    = [ mkDisk (Some ix) (metadata_file d); mkDisk (Some ix) (Some new_metadata) ] /\
  save_index_metadata (Some ix) new_metadata d
    = Ok (mkDisk (Some ix) (Some new_metadata)) /\
  last (save_trace (Some ix) new_metadata d) = Some (mkDisk (Some ix) (Some new_metadata)) /\
  (old_or_new ix new_metadata d (mkDisk (Some ix) (metadata_file d)) <->
     index_file d = Some ix \/ metadata_file d = Some new_metadata).
Proof.
  split; [done|]. split; [done|]. split; [done|].
  unfold old_or_new. destruct d as [i m]; simpl. split.
  - intros [Heq|Heq]; injection Heq as Heq; [by left|by right].
  - intros [-> | ->]; [by left|by right].
Qed.

(** ** Retrieval *)

Lemma index_in_range {A} (l : list A) (i : Z) :
  0 <= i < Z.of_nat (length l) ->
  exists x, Py.index l i = Some x /\ l !! Z.to_nat i = Some x.
Proof.
  intros Hi. unfold Py.index.
  destruct (Z.leb_spec 0 i); [|lia].
  destruct (Z.ltb_spec i (Z.of_nat (length l))); [|lia]. simpl.
  destruct (lookup_lt_is_Some_2 l (Z.to_nat i)) as [x Hx]; [lia|]. eauto.
Qed.

Lemma guard_false (metadata : list IndexEntry) (vid : Z) :
  (vid <? 0) || (vid >=? Z.of_nat (length metadata)) = false <->
  0 <= vid < Z.of_nat (length metadata).
Proof.
  rewrite orb_false_iff. rewrite Z.ltb_ge, Z.geb_leb, Z.leb_gt. lia.
Qed.

Lemma guard_true (metadata : list IndexEntry) (vid : Z) :
  (vid <? 0) || (vid >=? Z.of_nat (length metadata)) = true <->
  vid < 0 \/ Z.of_nat (length metadata) <= vid.
Proof.
  rewrite orb_true_iff. rewrite Z.ltb_lt, Z.geb_leb, Z.leb_le. lia.
Qed.

(** What one iteration does to the three components of the state. *)
Lemma retrieve_hit_frame data metadata st row :
  match retrieve_hit data metadata st row with
  | Next st' | Raised _ st' =>
      (exists hs, hits st' = hits st ++ hs) /\
      (exists ws, warnings st' = warnings st ++ ws) /\
      (derefs st' = derefs st \/
       derefs st' = derefs st ++ [row.1] /\ 0 <= row.1 < Z.of_nat (length metadata))
  | Hung => True
  end.
Proof.
  destruct row as [vid score]. unfold retrieve_hit.
  destruct ((vid <? 0) || (vid >=? Z.of_nat (length metadata))) eqn:Hg.
  { split; [exists []; by rewrite app_nil_r|].
    split; [exists []; by rewrite app_nil_r|]. by left. }
  apply guard_false in Hg.
  destruct (Py.index metadata vid) as [entry|].
  2:{ split; [exists []; by rewrite app_nil_r|].
      split; [exists []; by rewrite app_nil_r|]. by left. }
  destruct (open_filing data (e_ticker entry) (e_accession entry)) as [record|e].
  - destruct (chunk_text (rec_text record) CHUNK_SIZE CHUNK_OVERLAP) as [chunks|e|];
      [|simpl|done].
    + destruct (Py.index chunks (e_chunk_index entry)); simpl.
      * split; [eauto|]. split; [exists []; by rewrite app_nil_r|]. by right.
      * split; [exists []; by rewrite app_nil_r|].
        split; [exists []; by rewrite app_nil_r|]. by right.
    + split; [exists []; by rewrite app_nil_r|].
      split; [exists []; by rewrite app_nil_r|]. by right.
  - destruct e; simpl;
      (split; [exists []; by rewrite app_nil_r|]);
      (split; [first [exists []; by rewrite app_nil_r | eauto]|]); by right.
Qed.






Lemma retrieve_loop_derefs data metadata rows : forall st,
  (forall vid, vid ∈ derefs st -> 0 <= vid < Z.of_nat (length metadata)) ->
  match for_each (retrieve_hit data metadata) rows st with
  | Next st' | Raised _ st' =>
      forall vid, vid ∈ derefs st' -> 0 <= vid < Z.of_nat (length metadata)
  | Hung => True
  end.
Proof.
  induction rows as [|row rows IH]; intros st Hst; simpl; [done|].
  pose proof (retrieve_hit_frame data metadata st row) as Hf.
  destruct (retrieve_hit data metadata st row) as [s|e s|]; [| |done].
  - apply IH. destruct Hf as (_ & _ & [->|[-> Hr]]); [done|].
    intros vid Hv. apply elem_of_app in Hv as [Hv|Hv]; [by apply Hst|].
    apply list_elem_of_singleton in Hv as ->. done.
  - destruct Hf as (_ & _ & [->|[-> Hr]]); [done|].
    intros vid Hv. apply elem_of_app in Hv as [Hv|Hv]; [by apply Hst|].
    apply list_elem_of_singleton in Hv as ->. done.
Qed.


(** A state whose list of positions grew is not the state before. *)
Local Ltac position_appended :=
  let H := fresh "H" in
  intros H; simplify_eq/=;
  match goal with
  | Hst : ?ds ++ [_] = ?ds |- _ =>
      apply (f_equal length) in Hst; rewrite length_app in Hst; simpl in Hst; lia
  end.

(** C10. Bounds guard: a row whose id is negative or at least the length
    of the metadata list is skipped and leaves hits, warnings and the
    positions read untouched; for any other row the lookup [metadata[vid]]
    succeeds and reads position [vid]; no iteration ends in the
    [IndexError] of that lookup (the one exit that raises with the state
    as it was before the iteration); so every position of the metadata
    list that a query reads, whether it returns or raises, lies in
    [0, len(metadata)), whatever ids the index search returned and however
    many vectors the index holds; the same holds of every call of
    [retrieve]. *)
Theorem retrieve_bounds_guard (data : DataDir) (loaded : list IndexEntry)
    (rows : list (Z * float)) :
  (forall st (row : Z * float), row.1 < 0 \/ Z.of_nat (length loaded) <= row.1 ->
     retrieve_hit data loaded st row = Next st) /\
  (forall row : Z * float, 0 <= row.1 < Z.of_nat (length loaded) ->
     exists entry, Py.index loaded row.1 = Some entry /\
       loaded !! Z.to_nat row.1 = Some entry) /\
  (forall st row, retrieve_hit data loaded st row <> Raised IndexError st) /\
  match retrieve_hits data loaded rows with
  | Next st' | Raised _ st' =>
      forall vid, vid ∈ derefs st' -> 0 <= vid < Z.of_nat (length loaded)
  | Hung => True
  end /\
  (forall (index_search : Index -> list float -> Z -> list (Z * float))
          embed_texts d query k,
     metadata_file d = Some loaded ->
     match retrieve index_search embed_texts data d query k with
     | Next st' | Raised _ st' =>
         forall vid, vid ∈ derefs st' -> 0 <= vid < Z.of_nat (length loaded)
     | Hung => True
     end).
Proof.
  assert (Hloop : forall rows',
            match retrieve_hits data loaded rows' with
            | Next st' | Raised _ st' =>
                forall vid, vid ∈ derefs st' -> 0 <= vid < Z.of_nat (length loaded)
            | Hung => True
            end).
  { intros rows'. apply retrieve_loop_derefs.
    intros vid Hv. by apply elem_of_nil in Hv. }
  split.
  { intros st [vid score] Hout. simpl in Hout. unfold retrieve_hit.
    apply guard_true in Hout. rewrite Hout. done. }
  split.
  { intros row Hin. by apply index_in_range. }
  split.
  { intros [h w ds] [vid score]. unfold retrieve_hit.
    destruct ((vid <? 0) || (vid >=? Z.of_nat (length loaded))) eqn:Hg; [done|].
    apply guard_false in Hg.
    destruct (index_in_range loaded vid Hg) as (entry & -> & _).
    destruct (open_filing data (e_ticker entry) (e_accession entry)) as [record|e].
    - destruct (chunk_text (rec_text record) CHUNK_SIZE CHUNK_OVERLAP) as [chunks|e|];
        [|position_appended|done].
      destruct (Py.index chunks (e_chunk_index entry)); [done|position_appended].
    - destruct e; try done; position_appended. }
  split; [apply Hloop|].
  intros index_search embed_texts d query k Hmeta. unfold retrieve. rewrite Hmeta.
  assert (Hnone : forall vid : Z, vid ∈ ([] : list Z) ->
            0 <= vid < Z.of_nat (length loaded)).
  { intros vid Hv. by apply elem_of_nil in Hv. }
  destruct (index_file d) as [ix|]; [|exact Hnone].
  destruct (embed_texts 0%nat [query]) as [[|q_emb vs]|];
    [exact Hnone|apply Hloop|exact Hnone].
Qed.

(** ** The flush *)

(** A flush leaves index and metadata as they were, or extends both by the
    entries of the batch; it raises only in the first case. *)
Lemma process_chunk_batch_cases embed_texts n chunks_batch entries_batch ix0 metadata0 :
  let fr := process_chunk_batch embed_texts n chunks_batch entries_batch ix0 metadata0 in
  match fr_raised fr with
  | Some _ => fr_index fr = ix0 /\ fr_metadata fr = metadata0
  | None =>
      (chunks_batch = [] /\ fr_index fr = ix0 /\ fr_metadata fr = metadata0 /\
       fr_calls fr = n) \/
      (chunks_batch <> [] /\ (exists ix, fr_index fr = Some ix) /\
       index_ids (fr_index fr) = index_ids ix0 ++ (e_id <$> entries_batch) /\
       fr_metadata fr = metadata0 ++ entries_batch)
  end.
Proof.
  unfold process_chunk_batch. destruct chunks_batch as [|c cs]; simpl.
  { left. done. }
  destruct (embed_loop embed_texts n (sub_batches (c :: cs)) []) as [n' [emb|]];
    simpl; [|done].
  destruct emb as [|v vs]; simpl; [done|].
  destruct (negb _); simpl; [done|].
  unfold add_with_ids.
  destruct (negb _); simpl; [done|].
  destruct (negb _); simpl; [done|].
  right. split; [done|]. split; [eauto|]. split; [|done].
  destruct ix0; done.
Qed.


Lemma sub_batches_nonempty chunks_batch batch i :
  sub_batches chunks_batch !! i = Some batch -> chunks_batch <> [].
Proof. intros Hi ->. done. Qed.

(** ** Consistency of index and metadata *)

Lemma consistent_nil : consistent None [].
Proof. intros i. done. Qed.

Lemma consistent_extend ix0 ix1 (metadata0 batch : list IndexEntry) :
  consistent ix0 metadata0 ->
  index_ids ix1 = index_ids ix0 ++ (e_id <$> batch) ->
  consistent ix1 (metadata0 ++ batch).
Proof.
  intros Hc Hids i. rewrite Hids, fmap_app, !elem_of_app, (Hc i). done.
Qed.

Lemma process_chunk_batch_consistent embed_texts n chunks_batch entries_batch ix0 metadata0 :
  consistent ix0 metadata0 ->
  let fr := process_chunk_batch embed_texts n chunks_batch entries_batch ix0 metadata0 in
  consistent (fr_index fr) (fr_metadata fr).
Proof.
  intros Hc fr.
  pose proof (process_chunk_batch_cases embed_texts n chunks_batch entries_batch
                ix0 metadata0) as Hfr.
  fold fr in Hfr. simpl in Hfr.
  destruct (fr_raised fr).
  - destruct Hfr as [-> ->]. done.
  - destruct Hfr as [(_ & -> & -> & _)|(_ & _ & Hids & ->)]; [done|].
    by eapply consistent_extend.
Qed.

Lemma for_each_invariant {S A} (body : S -> A -> step S) (J : S -> Prop) :
  (forall s x, J s ->
     match body s x with Next s' | Raised _ s' => J s' | Hung => True end) ->
  forall l s, J s ->
    match for_each body l s with Next s' | Raised _ s' => J s' | Hung => True end.
Proof.
  intros Hbody. induction l as [|x l IH]; intros s Hs; simpl; [done|].
  specialize (Hbody s x Hs). destruct (body s x); [|done|done].
  by apply IH.
Qed.

(** Every staging step keeps index and metadata, and the two files,
    consistent. *)
Lemma stage_chunk_store_inv cfg embed_texts keys ticker record st ic :
  store_inv st ->
  match stage_chunk cfg embed_texts keys ticker record st ic with
  | Next st' | Raised _ st' => store_inv st'
  | Hung => True
  end.
Proof.
  intros [Hc Hd]. destruct ic as [idx chunk]. unfold stage_chunk.
  destruct (bool_decide _); [done|].
  destruct (_ >=? MAX_CHUNKS_IN_MEMORY cfg); [|done].
  match goal with |- context [process_chunk_batch ?e ?n ?c ?b ?i ?m] =>
    pose proof (process_chunk_batch_consistent e n c b i m Hc) as Hc';
    pose proof (process_chunk_batch_cases e n c b i m) as Hfr;
    set (fr := process_chunk_batch e n c b i m) in *
  end.
  simpl in Hc', Hfr.
  destruct (fr_raised fr); [done|].
  destruct (_ >=? SAVE_PROGRESS_EVERY cfg); [|done].
  unfold save_index_metadata. destruct (fr_index fr) as [ix|]; [|done].
  split; [exact Hc'|]. exact Hc'.
Qed.

Lemma process_file_store_inv cfg embed_texts keys ticker st file :
  store_inv st ->
  match process_file cfg embed_texts keys ticker st file with
  | Next st' | Raised _ st' => store_inv st'
  | Hung => True
  end.
Proof.
  intros Hst. destruct file as [fname record]. unfold process_file.
  destruct (negb _); [done|].
  destruct (chunk_text _ _ _); [|done|done].
  apply for_each_invariant; [|done].
  intros s x. apply stage_chunk_store_inv.
Qed.

Lemma process_ticker_store_inv cfg embed_texts keys st entry :
  store_inv st ->
  match process_ticker cfg embed_texts keys st entry with
  | Next st' | Raised _ st' => store_inv st'
  | Hung => True
  end.
Proof.
  intros Hst. destruct entry as [ticker [files|]]; simpl; [|done].
  apply for_each_invariant; [|done].
  intros s x. apply process_file_store_inv.
Qed.

Lemma initialize_index_store_inv d :
  disk_consistent d ->
  match initialize_index d with
  | Ok o => store_inv (start_state o d)
  | Fails _ => True
  end.
Proof.
  intros Hd. unfold initialize_index.
  destruct (metadata_file d) as [m|] eqn:Hm, (index_file d) as [ix|] eqn:Hix;
    try (split; [apply consistent_nil|done]).
  destruct (py_max (e_id <$> m)); [|done].
  split; [|done]. simpl. unfold disk_consistent in Hd. by rewrite Hix, Hm in Hd.
Qed.

Lemma update_embeddings_store_inv cfg embed_texts data d :
  disk_consistent d ->
  match update_embeddings cfg embed_texts data d with
  | Next st | Raised _ st => store_inv st
  | Hung => True
  end.
Proof.
  intros Hd. unfold update_embeddings.
  pose proof (initialize_index_store_inv d Hd) as Hinit.
  destruct (initialize_index d) as [o|e].
  2:{ split; [apply consistent_nil|done]. }
  pose proof (for_each_invariant (process_ticker cfg embed_texts o.1.2) store_inv
                (fun s x => process_ticker_store_inv cfg embed_texts o.1.2 s x)
                data _ Hinit) as Hloop.
  destruct (for_each _ data _) as [st|e st|]; [|done|done].
  destruct Hloop as [Hc Hdisk].
  set (fr := match current_chunks st with
             | [] => mkFlushed (calls st) (index st) (metadata st) None
             | _ :: _ => process_chunk_batch embed_texts (calls st) (current_chunks st)
                           (current_entries st) (index st) (metadata st)
             end).
  assert (Hc' : consistent (fr_index fr) (fr_metadata fr)).
  { subst fr. destruct (current_chunks st); [done|].
    by apply process_chunk_batch_consistent. }
  destruct (fr_raised fr); [done|].
  destruct (total_new_chunks st =? 0); [done|].
  unfold save_index_metadata. destruct (fr_index fr) as [ix|]; [|done].
  split; [exact Hc'|]. exact Hc'.
Qed.

(** C3. One-to-one index/metadata invariant. A flush leaves index and
    metadata as they were or appends the ids of the batch to the index and
    the entries of the batch to the metadata, so it keeps the set of index
    ids equal to the set of metadata ids; a persist writes that pair; every
    staging step of the builder (with its flush and its persist) keeps the
    equality in memory and on disk; and a run started on a consistent (or
    absent) persisted store ends, whether it completes or raises, with
    memory and disk consistent. *)
Theorem index_metadata_invariant (cfg : Config) (embed_texts : Embedder) :
  (forall n chunks_batch entries_batch ix0 loaded,
     let fr := process_chunk_batch embed_texts n chunks_batch entries_batch ix0 loaded in
     (fr_index fr = ix0 /\ fr_metadata fr = loaded \/
      index_ids (fr_index fr) = index_ids ix0 ++ (e_id <$> entries_batch) /\
      fr_metadata fr = loaded ++ entries_batch) /\
     (consistent ix0 loaded -> consistent (fr_index fr) (fr_metadata fr))) /\
  (forall ix loaded d disk1,
     consistent (Some ix) loaded ->
     save_index_metadata (Some ix) loaded d = Ok disk1 ->
     disk_consistent disk1) /\
  (forall keys ticker record st ic,
     store_inv st ->
     match stage_chunk cfg embed_texts keys ticker record st ic with
     | Next st' | Raised _ st' => store_inv st'
     | Hung => True
     end) /\
  (forall data d,
     disk_consistent d ->
     match update_embeddings cfg embed_texts data d with
     | Next st | Raised _ st => store_inv st
     | Hung => True
     end).
Proof.
  split.
  { intros n chunks_batch entries_batch ix0 loaded fr. split.
    - pose proof (process_chunk_batch_cases embed_texts n chunks_batch entries_batch
                    ix0 loaded) as Hfr.
      fold fr in Hfr. simpl in Hfr. destruct (fr_raised fr).
      + by left.
      + destruct Hfr as [(_ & ? & ? & _)|(_ & _ & ? & ?)]; [by left|by right].
    - intros Hc. by apply process_chunk_batch_consistent. }
  split.
  { intros ix loaded d disk1 Hc [= <-]. exact Hc. }
  split.
  { intros keys ticker record st ic. apply stage_chunk_store_inv. }
  intros data d. apply update_embeddings_store_inv.
Qed.

(** ** The traversal, relative to the opened store *)

Section Run.

Variable cfg : Config.
Variable embed_texts : Embedder.
Variable keys : gset ChunkKey.
Variable metadata0 : list IndexEntry.
Variable ids0 : list Z.
Variable nid0 : Z.
Variable disk0 : Disk.

Local Abbreviation Inv := (run_inv metadata0 ids0 nid0 disk0).

Lemma staged_eq st F :
  metadata st = metadata0 ++ F ->
  staged metadata0 st = F ++ current_entries st.
Proof.
  intros Hm. unfold staged. rewrite Hm, <- app_assoc, drop_app_length. done.
Qed.

Lemma run_inv_next_id st :
  Inv st -> next_id st = nid0 + Z.of_nat (length (staged metadata0 st)).
Proof.
  intros (F & Hm & _ & Hn & _). by rewrite (staged_eq st F Hm).
Qed.

Local Ltac lengths := rewrite ?length_app in *; simpl in *; lia.

Lemma stage_chunk_run ticker record st ic :
  Inv st ->
  match stage_chunk cfg embed_texts keys ticker record st ic with
  | Next st' =>
      Inv st' /\
      staged metadata0 st' =
        staged metadata0 st ++ chunk_entries keys ticker record (next_id st) ic
  | Raised _ st' =>
      Inv st' /\ disk st' = disk st /\ index st' = index st /\
      metadata st' = metadata st
  | Hung => True
  end.
Proof.
  intros HI. pose proof HI as (F & Hm & Hi & Hn & Ht & Hl & Hd).
  destruct ic as [idx chunk]. unfold stage_chunk, chunk_entries. simpl.
  destruct (bool_decide _).
  { split; [done|]. by rewrite app_nil_r. }
  set (entry := mkEntry (next_id st) ticker (rec_accession record) (Z.of_nat idx)
                  (rec_filing_date record) (rec_form record)).
  rewrite (staged_eq st F Hm).
  destruct (_ >=? MAX_CHUNKS_IN_MEMORY cfg).
  - match goal with |- context [process_chunk_batch ?e ?n ?c ?b ?i ?m] =>
      pose proof (process_chunk_batch_cases e n c b i m) as Hfr;
      set (fr := process_chunk_batch e n c b i m) in *
    end.
    simpl in Hfr. destruct (fr_raised fr).
    + destruct Hfr as [Hfi Hfm]. rewrite Hfi, Hfm.
      split; [|done]. exists F. simpl.
      split; [done|]. split; [done|]. split; [lengths|]. split; [lengths|].
      split; [lengths|done].
    + destruct Hfr as [(Hnil & _)|(_ & (ix & Hix) & Hids & Hfm)].
      { by destruct (current_chunks st). }
      assert (HI' : forall p d',
                (d' = disk st \/ d' = mkDisk (Some ix) (Some (fr_metadata fr))) ->
                Inv (mkBuild (fr_index fr) (fr_metadata fr) (next_id st + 1) [] []
                       (total_new_chunks st + 1) p d' (fr_calls fr))).
      { intros p d' Hd'. exists (F ++ current_entries st ++ [entry]). simpl.
        split; [by rewrite Hfm, Hm, <- app_assoc|].
        split; [by rewrite Hids, Hi, (fmap_app _ F), <- app_assoc|].
        split; [lengths|]. split; [lengths|]. split; [done|].
        destruct Hd' as [->| ->].
        { destruct Hd as [Hd|(ix' & n & Hd & Hn')]; [by left|].
          right. exists ix', (n `min` length F)%nat.
          rewrite take_app_le by lia.
          rewrite <- take_take, firstn_all. done. }
        right. exists ix, (length (F ++ current_entries st ++ [entry])).
        rewrite firstn_all. split; [by rewrite Hfm, Hm, <- app_assoc|].
        rewrite Hix in Hids. simpl in Hids.
        by rewrite Hids, Hi, (fmap_app _ F), <- app_assoc. }
      assert (Hst : forall p d',
                staged metadata0
                  (mkBuild (fr_index fr) (fr_metadata fr) (next_id st + 1) [] []
                     (total_new_chunks st + 1) p d' (fr_calls fr))
                = (F ++ current_entries st) ++ [entry]).
      { intros p d'. unfold staged. simpl.
        rewrite Hfm, Hm, app_nil_r, <- !app_assoc, drop_app_length. done. }
      destruct (_ >=? SAVE_PROGRESS_EVERY cfg).
      * unfold save_index_metadata. rewrite Hix. rewrite <- Hix. split.
        -- apply HI'. right. unfold write_metadata, write_index. simpl. done.
        -- apply Hst.
      * split; [apply HI'; by left|apply Hst].
  - split.
    + exists F. simpl. split; [done|]. split; [done|]. split; [lengths|].
      split; [lengths|]. split; [lengths|done].
    + unfold staged. simpl. rewrite Hm, <- !app_assoc, drop_app_length. done.
Qed.

(** A loop whose body stages [f (next_id st) x] for the element [x] stages
    [thread f (next_id st) l] for the list [l]. *)
Lemma for_each_thread {A} (body : BuildState -> A -> step BuildState)
    (f : Z -> A -> list IndexEntry) :
  (forall st x, Inv st ->
     match body st x with
     | Next st' => Inv st' /\ staged metadata0 st' = staged metadata0 st ++ f (next_id st) x
     | Raised _ st' => Inv st'
     | Hung => True
     end) ->
  forall l st, Inv st ->
    match for_each body l st with
    | Next st' =>
        Inv st' /\ staged metadata0 st' = staged metadata0 st ++ thread f (next_id st) l
    | Raised _ st' => Inv st'
    | Hung => True
    end.
Proof.
  intros Hbody. induction l as [|x l IH]; intros st HI; simpl.
  { split; [done|]. by rewrite app_nil_r. }
  specialize (Hbody st x HI). destruct (body st x) as [s|e s|]; [|done|done].
  destruct Hbody as [HIs Hs]. specialize (IH s HIs).
  destruct (for_each body l s) as [s'|e s'|]; [|done|done].
  destruct IH as [HIs' Hs']. split; [done|].
  rewrite Hs', Hs, <- app_assoc. do 3 f_equal.
  pose proof (run_inv_next_id s HIs) as E1.
  pose proof (run_inv_next_id st HI) as E2.
  rewrite Hs, length_app in E1. lia.
Qed.

Lemma process_file_run ticker st file :
  Inv st ->
  match process_file cfg embed_texts keys ticker st file with
  | Next st' =>
      Inv st' /\
      staged metadata0 st' = staged metadata0 st ++ file_entries keys ticker (next_id st) file
  | Raised _ st' => Inv st'
  | Hung => True
  end.
Proof.
  intros HI. destruct file as [fname record]. unfold process_file, file_entries. simpl.
  destruct (negb _).
  { split; [done|]. by rewrite app_nil_r. }
  destruct (chunk_text _ _ _) as [chunks|e|]; [|done|done].
  apply for_each_thread; [|done].
  intros s x Hs.
  pose proof (stage_chunk_run ticker record s x Hs) as H.
  destruct (stage_chunk _ _ _ _ _ s x); [done|by destruct H|done].
Qed.

Lemma process_ticker_run st entry :
  Inv st ->
  match process_ticker cfg embed_texts keys st entry with
  | Next st' =>
      Inv st' /\
      staged metadata0 st' = staged metadata0 st ++ ticker_entries keys (next_id st) entry
  | Raised _ st' => Inv st'
  | Hung => True
  end.
Proof.
  intros HI. destruct entry as [ticker [files|]]; unfold ticker_entries; simpl.
  - apply for_each_thread; [|done]. intros s x. apply process_file_run.
  - split; [done|]. by rewrite app_nil_r.
Qed.

Lemma traversal_run data st :
  Inv st ->
  match for_each (process_ticker cfg embed_texts keys) data st with
  | Next st' =>
      Inv st' /\
      staged metadata0 st' = staged metadata0 st ++ data_entries keys (next_id st) data
  | Raised _ st' => Inv st'
  | Hung => True
  end.
Proof.
  intros HI. apply for_each_thread; [|done]. intros s x. apply process_ticker_run.
Qed.

(** A traversal that stages nothing leaves the state as it is. *)
Lemma for_each_skip {A} (body : BuildState -> A -> step BuildState)
    (f : Z -> A -> list IndexEntry) :
  (forall st x nid, f nid x = [] -> body st x = Next st) ->
  forall l st nid, thread f nid l = [] -> for_each body l st = Next st.
Proof.
  intros Hbody. induction l as [|x l IH]; intros st nid Hnil; simpl; [done|].
  simpl in Hnil. apply app_eq_nil in Hnil as [Hx Hl].
  rewrite (Hbody st x nid Hx). rewrite Hx in Hl. by apply (IH st _ Hl).
Qed.

Lemma traversal_skip data st nid :
  data_entries keys nid data = [] ->
  for_each (process_ticker cfg embed_texts keys) data st = Next st.
Proof.
  apply for_each_skip. clear. intros st [ticker [files|]] nid; [|done].
  unfold ticker_entries. simpl. apply for_each_skip. clear.
  intros st [fname record] nid. unfold file_entries, process_file. simpl.
  destruct (negb _); [done|].
  destruct (chunk_text_default (rec_text record)) as [chunks ->].
  apply for_each_skip. clear.
  intros st [idx chunk] nid. unfold chunk_entries, stage_chunk. simpl.
  by destruct (bool_decide _).
Qed.

End Run.

(** ** Which chunks a run stages *)

(** The keys staged against [keys] are the keys of the corpus that are not
    in [keys], in traversal order. *)
Lemma thread_keys_filter {A : Type} (keys : gset ChunkKey)
    (f f0 : Z -> A -> list IndexEntry) :
  (forall nid nid' x,
     key_of <$> f nid x = filter (fun k => k ∉ keys) (key_of <$> f0 nid' x)) ->
  forall l nid nid',
    key_of <$> thread f nid l
    = filter (fun k => k ∉ keys) (key_of <$> thread f0 nid' l).
Proof.
  intros Hf. induction l as [|x l IH]; intros nid nid'; simpl; [done|].
  rewrite !fmap_app, filter_app. f_equal; [apply Hf|apply IH].
Qed.

Lemma data_entries_keys keys nid data :
  key_of <$> data_entries keys nid data
  = filter (fun k => k ∉ keys) (corpus_keys data).
Proof.
  unfold corpus_keys, data_entries. apply thread_keys_filter. clear nid data.
  intros nid nid' [ticker [files|]]; [|done].
  unfold ticker_entries. simpl. apply thread_keys_filter. clear nid nid' files.
  intros nid nid' [fname record]. unfold file_entries. simpl.
  destruct (negb _); [done|].
  destruct (chunk_text _ _ _) as [chunks|e|]; [|done|done].
  apply thread_keys_filter. clear.
  intros nid nid' [idx chunk]. unfold chunk_entries. simpl.
  rewrite (bool_decide_eq_false_2 (_ ∈ (∅ : gset ChunkKey))) by set_solver.
  simpl. unfold key_of at 2. simpl.
  destruct (bool_decide_reflect ((ticker, rec_accession record, Z.of_nat idx) ∈ keys)).
  - rewrite filter_cons_False by (intros Hn; done). done.
  - rewrite filter_cons_True by done. done.
Qed.

(** Every staged entry has a key outside the existing keys. *)
Lemma data_entries_fresh keys nid data e :
  e ∈ data_entries keys nid data -> key_of e ∉ keys.
Proof.
  intros He.
  assert (Hk : key_of e ∈ key_of <$> data_entries keys nid data).
  { apply list_elem_of_fmap. eauto. }
  rewrite data_entries_keys in Hk. apply list_elem_of_filter in Hk. tauto.
Qed.

(** Every key of the corpus is an existing key or the key of a staged entry. *)
Lemma corpus_keys_covered keys nid data k :
  k ∈ corpus_keys data ->
  k ∈ keys \/ k ∈ key_of <$> data_entries keys nid data.
Proof.
  intros Hk. destruct (decide (k ∈ keys)) as [|Hn]; [by left|right].
  rewrite data_entries_keys. apply list_elem_of_filter. done.
Qed.

(** When every key of the corpus is an existing key, nothing is staged. *)
Lemma data_entries_nil keys nid data :
  (forall k, k ∈ corpus_keys data -> k ∈ keys) ->
  data_entries keys nid data = [].
Proof.
  intros Hall. apply (fmap_nil_inv key_of). rewrite data_entries_keys.
  destruct (filter _ _) as [|k l] eqn:Hf; [done|].
  assert (Hk : k ∈ filter (fun k => k ∉ keys) (corpus_keys data)).
  { rewrite Hf. apply list_elem_of_here. }
  apply list_elem_of_filter in Hk as [Hn Hk]. destruct Hn. by apply Hall.
Qed.

(** The key set that [initialize_index] returns is that of the metadata it
    returns. *)
Lemma initialize_index_keys d ix loaded keys nid :
  initialize_index d = Ok (ix, loaded, keys, nid) ->
  keys = list_to_set (key_of <$> loaded).
Proof.
  unfold initialize_index.
  destruct (metadata_file d) as [m|], (index_file d) as [i|];
    try (intros [= <- <- <- <-]; done).
  destruct (py_max _); [|done]. intros [= <- <- <- <-]. done.
Qed.

Lemma run_inv_start ix loaded keys nid d :
  run_inv loaded (index_ids ix) nid d (start_state (ix, loaded, keys, nid) d).
Proof.
  exists []. simpl. rewrite !app_nil_r. repeat split; try done; try lia.
  by left.
Qed.

(** A completed run: the metadata is the loaded metadata followed by the
    entries staged for the corpus, the index has their ids after the loaded
    ones; with nothing staged the state is the one the run started in, and
    otherwise both files hold the final index and metadata. *)
Lemma update_embeddings_completed cfg embed_texts data d st1 :
  update_embeddings cfg embed_texts data d = Next st1 ->
  exists ix loaded keys nid,
    initialize_index d = Ok (ix, loaded, keys, nid) /\
    metadata st1 = loaded ++ data_entries keys nid data /\
    index_ids (index st1) = index_ids ix ++ (e_id <$> data_entries keys nid data) /\
    (data_entries keys nid data = [] ->
       st1 = start_state (ix, loaded, keys, nid) d) /\
    (data_entries keys nid data <> [] ->
       exists ix1, index st1 = Some ix1 /\
         disk st1 = mkDisk (Some ix1) (Some (metadata st1))).
Proof.
  unfold update_embeddings.
  destruct (initialize_index d) as [[[[ix loaded] keys] nid]|e]; [|done].
  simpl. intros Hrun. exists ix, loaded, keys, nid. split; [done|].
  destruct (decide (data_entries keys nid data = [])) as [HE|HE].
  - rewrite (traversal_skip cfg embed_texts keys data _ nid HE) in Hrun.
    simpl in Hrun. injection Hrun as <-. rewrite HE, !app_nil_r. done.
  - pose proof (traversal_run cfg embed_texts keys loaded (index_ids ix) nid d data _
                  (run_inv_start ix loaded keys nid d)) as Hloop.
    destruct (for_each _ data _) as [st|e st|]; [|done|done].
    destruct Hloop as [(F & Hm & Hi & Hn & Ht & Hl & Hd) Hst].
    rewrite (staged_eq loaded st F Hm) in Hst.
    unfold staged in Hst. simpl in Hst.
    rewrite app_nil_r, drop_all in Hst. simpl in Hst.
    assert (Htot : (total_new_chunks st =? 0) = false).
    { apply Z.eqb_neq. rewrite Ht, Hst.
      destruct (data_entries keys nid data); [done|]. simpl. lia. }
    destruct (current_chunks st) as [|c cs] eqn:Hcur.
    + simpl in Hrun. rewrite Htot in Hrun.
      destruct (current_entries st); [|done]. rewrite app_nil_r in Hst.
      unfold save_index_metadata in Hrun.
      destruct (index st) as [ix1|] eqn:Hix; [|done].
      injection Hrun as <-. simpl. rewrite <- Hst. rewrite <- Hst in HE.
      split; [done|]. split; [done|]. split; [done|]. intros _.
      exists ix1. done.
    + pose proof (process_chunk_batch_cases embed_texts (calls st) (c :: cs)
                    (current_entries st) (index st) (metadata st)) as Hfr.
      cbv beta iota zeta in Hfr, Hrun.
      set (fr := process_chunk_batch embed_texts (calls st) (c :: cs)
                   (current_entries st) (index st) (metadata st)) in *.
      destruct (fr_raised fr); [done|].
      destruct Hfr as [(? & _)|(_ & (ix1 & Hix) & Hids & Hfm)]; [done|].
      rewrite Htot in Hrun. unfold save_index_metadata in Hrun.
      rewrite Hix in Hrun. injection Hrun as <-. simpl.
      rewrite Hfm, Hm, <- app_assoc, <- Hst. rewrite <- Hst in HE.
      split; [done|].
      split. { rewrite Hix in Hids. simpl in Hids.
               by rewrite Hids, Hi, (fmap_app _ F), <- app_assoc. }
      split; [done|]. intros _. exists ix1. done.
Qed.

(** C2. Idempotent re-run: when a run of the builder over a corpus
    completes, a second run over the same corpus that starts from the files
    the first run left (with any embedder and any batch configuration)
    opens a store whose key set contains the key of every chunk of
    the corpus, calls the embedder zero times, stages nothing, and returns
    with index and metadata exactly as loaded and the disk untouched. *)
Theorem update_embeddings_idempotent (first_cfg second_cfg : Config)
    (first_embedder second_embedder : Embedder) (data : DataDir) (d : Disk)
    (st1 : BuildState) :
  update_embeddings first_cfg first_embedder data d = Next st1 ->
  exists ix loaded keys nid,
    initialize_index (disk st1) = Ok (ix, loaded, keys, nid) /\
    keys = list_to_set (key_of <$> loaded) /\
    (forall k, k ∈ corpus_keys data -> k ∈ keys) /\
    data_entries keys nid data = [] /\
    update_embeddings second_cfg second_embedder data (disk st1)
      = Next {| index := ix; metadata := loaded; next_id := nid;
                current_chunks := []; current_entries := [];
                total_new_chunks := 0; processed_chunks := 0;
                disk := disk st1; calls := 0 |}.
Proof.
  intros Hrun.
  destruct (update_embeddings_completed _ _ _ _ _ Hrun)
    as (ix0 & loaded0 & keys0 & nid0 & Hinit & Hm & Hi & Hnil & Hne).
  pose proof (initialize_index_keys _ _ _ _ _ Hinit) as Hkeys0.
  destruct (decide (data_entries keys0 nid0 data = [])) as [HE|HE].
  - specialize (Hnil HE). subst st1. simpl.
    exists ix0, loaded0, keys0, nid0.
    split; [done|]. split; [done|]. split.
    { intros k Hk. destruct (corpus_keys_covered keys0 nid0 data k Hk) as [|Hin]; [done|].
      rewrite HE in Hin. by apply elem_of_nil in Hin. }
    split; [done|].
    unfold update_embeddings. rewrite Hinit. simpl.
    rewrite (traversal_skip second_cfg second_embedder keys0 data _ nid0 HE). done.
  - destruct (Hne HE) as (ix1 & Hix & Hdisk).
    assert (Hnon : metadata st1 <> []).
    { rewrite Hm. destruct loaded0, (data_entries keys0 nid0 data); done. }
    destruct (initialize_index_unchecked (disk st1) ix1 (metadata st1))
      as (_ & mx & Hinit1 & _); [by rewrite Hdisk|by rewrite Hdisk|done|].
    set (keys1 := list_to_set (key_of <$> metadata st1) : gset ChunkKey) in *.
    assert (Hcover : forall k, k ∈ corpus_keys data -> k ∈ keys1).
    { intros k Hk. subst keys1. rewrite elem_of_list_to_set, Hm, fmap_app, elem_of_app.
      destruct (corpus_keys_covered keys0 nid0 data k Hk) as [Hin|Hin]; [|by right].
      left. rewrite Hkeys0 in Hin. by apply elem_of_list_to_set in Hin. }
    pose proof (data_entries_nil keys1 (mx + 1) data Hcover) as HE1.
    exists (Some ix1), (metadata st1), keys1, (mx + 1).
    split; [done|]. split; [done|]. split; [done|]. split; [done|].
    unfold update_embeddings. rewrite Hinit1. simpl.
    rewrite (traversal_skip second_cfg second_embedder keys1 data _ (mx + 1) HE1). done.
Qed.

(** ** Failure of the embedder during a flush *)





(** * Further properties of the code *)

(** ** Sub-batching of a flush *)

Lemma slice_window {A} (l : list A) (lo : Z) (width : nat) :
  0 <= lo ->
  Py.slice l lo (lo + Z.of_nat width) = take width (drop (Z.to_nat lo) l).
Proof.
  intros Hlo. unfold Py.slice, Py.adjust.
  destruct (Z.ltb_spec lo 0); [lia|].
  destruct (Z.ltb_spec (lo + Z.of_nat width) 0); [lia|].
  destruct (Z.ltb_spec (Z.min lo (Z.of_nat (length l)))
              (Z.min (lo + Z.of_nat width) (Z.of_nat (length l)))) as [Hlt|Hge].
  - rewrite (Z.min_l lo) by lia.
    destruct (Z.le_ge_cases (lo + Z.of_nat width) (Z.of_nat (length l))).
    + rewrite (Z.min_l (lo + _)) by lia. f_equal. lia.
    + rewrite (Z.min_r (lo + _)) by lia.
      rewrite (take_ge (drop _ _) width) by (rewrite length_drop; lia).
      apply take_ge. rewrite length_drop. lia.
  - destruct (Z.le_gt_cases (Z.of_nat (length l)) lo).
    + rewrite drop_ge by lia. by destruct width.
    + assert (width = 0%nat) by lia. subst. done.
Qed.

Lemma windows_concat {A} (l : list A) (width : nat) (n : nat) :
  concat ((fun q => take width (drop (q * width) l)) <$> seq 0 n)
  = take (n * width) l.
Proof.
  induction n as [|n IH]; [done|].
  rewrite seq_S, fmap_app, concat_app, IH. simpl. rewrite app_nil_r.
  rewrite take_take_drop. f_equal. lia.
Qed.

Lemma sub_batches_eq (chunks_batch : list string) :
  sub_batches chunks_batch
  = (fun q => take BATCH_SIZE (drop (q * BATCH_SIZE) chunks_batch))
      <$> seq 0 ((length chunks_batch + BATCH_SIZE - 1) / BATCH_SIZE)%nat.
Proof.
  unfold sub_batches. apply list_fmap_ext. intros i q _.
  rewrite slice_window by lia. by rewrite Nat2Z.id.
Qed.

(** X1. The sub-batches of a flush are a partition of the batch in order:
    concatenated they give the batch back, there are [ceil(len / 100)] of
    them, and each holds between 1 and [BATCH_SIZE] texts, so the embedder
    is never handed an empty list nor more than 100 texts. *)
Theorem sub_batches_partition (chunks_batch : list string) :
  concat (sub_batches chunks_batch) = chunks_batch /\
  length (sub_batches chunks_batch)
    = ((length chunks_batch + BATCH_SIZE - 1) / BATCH_SIZE)%nat /\
  (forall batch, batch ∈ sub_batches chunks_batch ->
     (0 < length batch <= BATCH_SIZE)%nat).
Proof.
  set (n := ((length chunks_batch + BATCH_SIZE - 1) / BATCH_SIZE)%nat).
  assert (Hn : (length chunks_batch <= n * BATCH_SIZE)%nat
               /\ forall q, (q < n)%nat -> (q * BATCH_SIZE < length chunks_batch)%nat).
  { subst n. unfold BATCH_SIZE.
    pose proof (Nat.div_mod_eq (length chunks_batch + 100 - 1) 100) as Hdiv.
    pose proof (Nat.mod_upper_bound (length chunks_batch + 100 - 1) 100 ltac:(lia)).
    split; [lia|]. intros q Hq. nia. }
  destruct Hn as [Hcover Hstart].
  rewrite sub_batches_eq. fold n. split.
  { rewrite windows_concat. by apply take_ge. }
  split.
  { by rewrite length_fmap, length_seq. }
  intros batch Hb. apply list_elem_of_fmap in Hb as (q & -> & Hq).
  apply elem_of_seq in Hq. specialize (Hstart q ltac:(lia)).
  rewrite length_take, length_drop. unfold BATCH_SIZE in *. lia.
Qed.

(** ** A flush whose embedding calls all answer *)




(** ** Identifiers and keys after a run *)

Lemma thread_ids {A : Type} (f : Z -> A -> list IndexEntry) :
  (forall nid x, e_id <$> f nid x = seqZ nid (Z.of_nat (length (f nid x)))) ->
  forall l nid,
    e_id <$> thread f nid l = seqZ nid (Z.of_nat (length (thread f nid l))).
Proof.
  intros Hf. induction l as [|x l IH]; intros nid; simpl; [done|].
  rewrite fmap_app, length_app, Nat2Z.inj_add, seqZ_app by lia.
  by rewrite Hf, IH.
Qed.

(** The ids staged by a run count up from [nid], one by one. *)
Lemma data_entries_ids keys nid data :
  e_id <$> data_entries keys nid data
  = seqZ nid (Z.of_nat (length (data_entries keys nid data))).
Proof.
  unfold data_entries. apply thread_ids. clear nid data.
  intros nid [ticker [files|]]; [|done].
  unfold ticker_entries. simpl. apply thread_ids. clear nid files.
  intros nid [fname record]. unfold file_entries. simpl.
  destruct (negb _); [done|].
  destruct (chunk_text _ _ _) as [chunks|e|]; [|done|done].
  apply thread_ids. clear.
  intros nid [idx chunk]. unfold chunk_entries. simpl.
  by destruct (bool_decide _).
Qed.

(** The [next_id] that [initialize_index] returns is above every loaded id. *)
Lemma initialize_index_next_id d ix loaded keys nid :
  initialize_index d = Ok (ix, loaded, keys, nid) ->
  forall m, m ∈ loaded -> e_id m < nid.
Proof.
  unfold initialize_index.
  destruct (metadata_file d) as [l|], (index_file d) as [i|];
    try (intros [= <- <- <- <-] m Hm; by apply elem_of_nil in Hm).
  destruct (py_max (e_id <$> l)) as [mx|] eqn:Hmax; [|done].
  intros [= <- <- <- <-] m Hm.
  destruct (py_max_spec _ _ Hmax) as [_ Hall].
  assert (e_id m <= mx); [|lia]. apply Hall. apply list_elem_of_fmap. eauto.
Qed.

(** X3. Identifiers are never reused. After a completed run the metadata
    is the loaded metadata followed by new entries whose ids are
    [next_id, next_id + 1, ...] without gap, every loaded id is below
    [next_id], and therefore the ids of the metadata are pairwise distinct
    whenever those of the loaded metadata were. *)
Theorem update_embeddings_fresh_ids (cfg : Config) (embed_texts : Embedder)
    (data : DataDir) (d : Disk) (st1 : BuildState) :
  update_embeddings cfg embed_texts data d = Next st1 ->
  exists ix loaded keys nid added,
    initialize_index d = Ok (ix, loaded, keys, nid) /\
    metadata st1 = loaded ++ added /\
    e_id <$> added = seqZ nid (Z.of_nat (length added)) /\
    (forall m, m ∈ loaded -> e_id m < nid) /\
    (forall m, m ∈ added -> nid <= e_id m) /\
    (NoDup (e_id <$> loaded) -> NoDup (e_id <$> metadata st1)).
Proof.
  intros Hrun.
  destruct (update_embeddings_completed _ _ _ _ _ Hrun)
    as (ix & loaded & keys & nid & Hinit & Hm & _).
  exists ix, loaded, keys, nid, (data_entries keys nid data).
  pose proof (data_entries_ids keys nid data) as Hids.
  pose proof (initialize_index_next_id _ _ _ _ _ Hinit) as Hold.
  assert (Hnew : forall m, m ∈ data_entries keys nid data -> nid <= e_id m).
  { intros m Hin.
    assert (Hid : e_id m ∈ e_id <$> data_entries keys nid data).
    { apply list_elem_of_fmap. eauto. }
    rewrite Hids in Hid. apply elem_of_seqZ in Hid. lia. }
  split; [done|]. split; [done|]. split; [done|]. split; [done|]. split; [done|].
  intros Hnd. rewrite Hm, fmap_app. apply NoDup_app. split; [done|]. split.
  - intros i Hi Hi'.
    apply list_elem_of_fmap in Hi as (m & -> & Hm1).
    apply list_elem_of_fmap in Hi' as (m' & Heq & Hm2).
    specialize (Hold m Hm1). specialize (Hnew m' Hm2). lia.
  - rewrite Hids. apply NoDup_seqZ.
Qed.

Lemma py_max_seqZ (n : nat) :
  (0 < n)%nat -> py_max (seqZ 0 (Z.of_nat n)) = Some (Z.of_nat n - 1).
Proof.
  intros Hn. destruct (py_max (seqZ 0 (Z.of_nat n))) as [mx|] eqn:Hmax.
  - destruct (py_max_spec _ _ Hmax) as [Hin Hall].
    apply elem_of_seqZ in Hin.
    assert (Z.of_nat n - 1 <= mx); [|f_equal; lia].
    apply Hall. apply elem_of_seqZ. lia.
  - destruct n; [lia|]. rewrite seqZ_cons in Hmax by lia. done.
Qed.

(** X4. The id of an entry is its position. When the ids of the loaded
    metadata are [0, 1, ..., len - 1] in order (as in a store that does not
    exist yet), a completed run leaves metadata whose ids are again
    [0, 1, ..., len - 1] in order, the new index ids continue those of the
    loaded index in the same order, and so [metadata[vid]] read through a
    non-negative id is the entry whose id is [vid]. *)
Theorem update_embeddings_positional_ids (cfg : Config) (embed_texts : Embedder)
    (data : DataDir) (d : Disk) (st1 : BuildState) ix loaded keys nid :
  initialize_index d = Ok (ix, loaded, keys, nid) ->
  e_id <$> loaded = seqZ 0 (Z.of_nat (length loaded)) ->
  update_embeddings cfg embed_texts data d = Next st1 ->
  e_id <$> metadata st1 = seqZ 0 (Z.of_nat (length (metadata st1))) /\
  index_ids (index st1)
    = index_ids ix ++ seqZ (Z.of_nat (length loaded))
                        (Z.of_nat (length (metadata st1)) - Z.of_nat (length loaded)) /\
  (forall vid entry, 0 <= vid -> Py.index (metadata st1) vid = Some entry ->
     e_id entry = vid).
Proof.
  intros Hinit Hpos Hrun.
  destruct (update_embeddings_completed _ _ _ _ _ Hrun)
    as (ix' & loaded' & keys' & nid' & Hinit' & Hm & Hi & _).
  rewrite Hinit in Hinit'. injection Hinit' as <- <- <- <-.
  assert (Hnid : nid = Z.of_nat (length loaded)).
  { revert Hinit. unfold initialize_index.
    destruct (metadata_file d) as [l|], (index_file d) as [i|];
      try (intros [= <- <- <- <-]; done).
    destruct (py_max (e_id <$> l)) as [mx|] eqn:Hmax; [|done].
    intros [= <- <- <- <-]. rewrite Hpos in Hmax.
    destruct l as [|m l]; [done|].
    rewrite py_max_seqZ in Hmax by (simpl; lia). injection Hmax as <-.
    simpl length. lia. }
  pose proof (data_entries_ids keys nid data) as Hids.
  assert (Hall : e_id <$> metadata st1 = seqZ 0 (Z.of_nat (length (metadata st1)))).
  { rewrite Hm, fmap_app, length_app, Nat2Z.inj_add, seqZ_app by lia.
    rewrite Hpos, Hids, Hnid. done. }
  split; [exact Hall|]. split.
  { rewrite Hi, Hids, Hm, length_app, Hnid. do 2 f_equal. lia. }
  intros vid entry Hvid Hlook. unfold Py.index in Hlook.
  destruct (Z.leb_spec 0 vid); [|lia].
  destruct (Z.ltb_spec vid (Z.of_nat (length (metadata st1)))); simpl in Hlook.
  - assert (Hid : (e_id <$> metadata st1) !! Z.to_nat vid = Some (e_id entry)).
    { by rewrite list_lookup_fmap, Hlook. }
    rewrite Hall in Hid. apply lookup_seqZ in Hid. lia.
  - destruct (Z.leb_spec (- Z.of_nat (length (metadata st1))) vid),
             (Z.ltb_spec vid 0); simpl in Hlook; try done; lia.
Qed.

(** X5. No duplicate keys. When the keys of the corpus are pairwise
    distinct (no two indexed files of a ticker carry the same accession)
    and so are those of the loaded metadata, the keys of the metadata after
    a completed run are pairwise distinct: no chunk is indexed twice. *)
Theorem update_embeddings_unique_keys (cfg : Config) (embed_texts : Embedder)
    (data : DataDir) (d : Disk) (st1 : BuildState) ix loaded keys nid :
  initialize_index d = Ok (ix, loaded, keys, nid) ->
  NoDup (key_of <$> loaded) ->
  NoDup (corpus_keys data) ->
  update_embeddings cfg embed_texts data d = Next st1 ->
  NoDup (key_of <$> metadata st1).
Proof.
  intros Hinit Hloaded Hcorpus Hrun.
  destruct (update_embeddings_completed _ _ _ _ _ Hrun)
    as (ix' & loaded' & keys' & nid' & Hinit' & Hm & _).
  rewrite Hinit in Hinit'. injection Hinit' as <- <- <- <-.
  pose proof (initialize_index_keys _ _ _ _ _ Hinit) as Hkeys.
  rewrite Hm, fmap_app. apply NoDup_app. split; [done|]. split.
  - intros k Hk Hk'. rewrite data_entries_keys in Hk'.
    apply list_elem_of_filter in Hk' as [Hn _]. apply Hn.
    rewrite Hkeys. by apply elem_of_list_to_set.
  - rewrite data_entries_keys. by apply NoDup_filter.
Qed.

(** ** Bounds on the batch and on the work not yet persisted *)

Lemma for_each_invariant2 {S A} (body : S -> A -> step S) (J K : S -> Prop) :
  (forall s x, J s ->
     match body s x with Next s' => J s' | Raised _ s' => K s' | Hung => True end) ->
  forall l s, J s ->
    match for_each body l s with Next s' => J s' | Raised _ s' => K s' | Hung => True end.
Proof.
  intros Hbody. induction l as [|x l IH]; intros s Hs; simpl; [done|].
  specialize (Hbody s x Hs). destruct (body s x); [|done|done].
  by apply IH.
Qed.

Lemma stage_chunk_batch_bound cfg embed_texts keys ticker record st ic :
  Z.of_nat (length (current_chunks st)) < batch_bound cfg ->
  match stage_chunk cfg embed_texts keys ticker record st ic with
  | Next st' => Z.of_nat (length (current_chunks st')) < batch_bound cfg
  | Raised _ st' => Z.of_nat (length (current_chunks st')) = batch_bound cfg
  | Hung => True
  end.
Proof.
  intros Hb. destruct ic as [idx chunk]. unfold stage_chunk, batch_bound in *.
  destruct (bool_decide _); [done|].
  destruct (Z.geb_spec (Z.of_nat (length (current_chunks st ++ [chunk])))
              (MAX_CHUNKS_IN_MEMORY cfg)) as [Hge|Hlt].
  - match goal with |- context [process_chunk_batch ?e ?n ?c ?b ?i ?m] =>
      pose proof (process_chunk_batch_cases e n c b i m) as Hfr;
      set (fr := process_chunk_batch e n c b i m) in *
    end.
    cbv zeta in Hfr. rewrite length_app in Hge. simpl in Hge.
    destruct (fr_raised fr).
    + simpl. rewrite length_app. simpl. lia.
    + destruct Hfr as [(Hnil & _)|(_ & (ix & Hix) & _)].
      { by destruct (current_chunks st). }
      destruct (_ >=? SAVE_PROGRESS_EVERY cfg); [|simpl; lia].
      unfold save_index_metadata. rewrite Hix. simpl. lia.
  - simpl. rewrite length_app in *. simpl in *. lia.
Qed.

(** X6. Bounded staging. The traversal never holds more than
    [max(1, MAX_CHUNKS_IN_MEMORY)] staged chunks: from a state below that
    bound every staging step that returns ends below it, a step that raises
    does so with a batch of exactly that size, and the same holds of the
    whole traversal of the corpus and of the state a run ends in. *)
Theorem staged_batch_is_bounded (cfg : Config) (embed_texts : Embedder) :
  (forall keys ticker record st ic,
     Z.of_nat (length (current_chunks st)) < batch_bound cfg ->
     match stage_chunk cfg embed_texts keys ticker record st ic with
     | Next st' => Z.of_nat (length (current_chunks st')) < batch_bound cfg
     | Raised _ st' => Z.of_nat (length (current_chunks st')) = batch_bound cfg
     | Hung => True
     end) /\
  (forall keys data st,
     Z.of_nat (length (current_chunks st)) < batch_bound cfg ->
     match for_each (process_ticker cfg embed_texts keys) data st with
     | Next st' => Z.of_nat (length (current_chunks st')) < batch_bound cfg
     | Raised _ st' => Z.of_nat (length (current_chunks st')) = batch_bound cfg
     | Hung => True
     end) /\
  (forall data d,
     match update_embeddings cfg embed_texts data d with
     | Next st' | Raised _ st' =>
         Z.of_nat (length (current_chunks st')) <= batch_bound cfg
     | Hung => True
     end).
Proof.
  assert (Hstep : forall keys ticker record st ic,
            Z.of_nat (length (current_chunks st)) < batch_bound cfg ->
            match stage_chunk cfg embed_texts keys ticker record st ic with
            | Next st' => Z.of_nat (length (current_chunks st')) < batch_bound cfg
            | Raised _ st' => Z.of_nat (length (current_chunks st')) = batch_bound cfg
            | Hung => True
            end).
  { intros. by apply stage_chunk_batch_bound. }
  assert (Hloop : forall keys data st,
            Z.of_nat (length (current_chunks st)) < batch_bound cfg ->
            match for_each (process_ticker cfg embed_texts keys) data st with
            | Next st' => Z.of_nat (length (current_chunks st')) < batch_bound cfg
            | Raised _ st' => Z.of_nat (length (current_chunks st')) = batch_bound cfg
            | Hung => True
            end).
  { intros keys data. apply for_each_invariant2.
    intros s [ticker [files|]] Hs; simpl; [|done].
    apply for_each_invariant2; [|done].
    intros s' [fname record] Hs'. unfold process_file.
    destruct (negb _); [done|].
    destruct (chunk_text_default (rec_text record)) as [chunks ->].
    apply for_each_invariant2; [|done].
    intros s'' ic. apply Hstep. }
  split; [exact Hstep|]. split; [exact Hloop|].
  intros data d. unfold update_embeddings.
  destruct (initialize_index d) as [[[[ix loaded] keys] nid]|e].
  2:{ simpl. unfold batch_bound. lia. }
  simpl.
  pose proof (Hloop keys data (start_state (ix, loaded, keys, nid) d)) as Hl.
  destruct (for_each _ data _) as [st|e st|]; [| |done].
  - specialize (Hl ltac:(simpl; unfold batch_bound; lia)).
    destruct (fr_raised _); [simpl; lia|].
    destruct (total_new_chunks st =? 0); [simpl; lia|].
    destruct (save_index_metadata _ _ _); simpl; lia.
  - specialize (Hl ltac:(simpl; unfold batch_bound; lia)). lia.
Qed.

Lemma stage_chunk_checkpoint cfg embed_texts keys ticker record metadata0 disk0 st ic :
  checkpoint_inv cfg metadata0 disk0 st ->
  match stage_chunk cfg embed_texts keys ticker record st ic with
  | Next st' | Raised _ st' => checkpoint_inv cfg metadata0 disk0 st'
  | Hung => True
  end.
Proof.
  intros HI. pose proof HI as (F & n & Hm & Hn & Hp & Hb & Hl & Hd).
  destruct ic as [idx chunk]. unfold stage_chunk.
  destruct (bool_decide _); [done|].
  set (entry := mkEntry (next_id st) ticker (rec_accession record) (Z.of_nat idx)
                  (rec_filing_date record) (rec_form record)).
  destruct (_ >=? MAX_CHUNKS_IN_MEMORY cfg).
  - match goal with |- context [process_chunk_batch ?e ?k ?c ?b ?i ?m] =>
      pose proof (process_chunk_batch_cases e k c b i m) as Hfr;
      set (fr := process_chunk_batch e k c b i m) in *
    end.
    cbv zeta in Hfr. destruct (fr_raised fr).
    + destruct Hfr as [_ Hfm]. exists F, n. simpl. rewrite Hfm.
      split; [done|]. split; [done|]. split; [done|]. split; [done|].
      split; [rewrite !length_app; simpl; lia|done].
    + destruct Hfr as [(Hnil & _)|(_ & (ix & Hix) & _ & Hfm)].
      { by destruct (current_chunks st). }
      assert (Hlen : length (current_chunks st ++ [chunk])
                     = length (current_entries st ++ [entry])).
      { rewrite !length_app. simpl. lia. }
      destruct (Z.geb_spec (processed_chunks st
                            + Z.of_nat (length (current_chunks st ++ [chunk])))
                  (SAVE_PROGRESS_EVERY cfg)) as [Hsave|Hkeep].
      * unfold save_index_metadata. rewrite Hix.
        exists (F ++ current_entries st ++ [entry]),
               (length (F ++ current_entries st ++ [entry])).
        simpl. split; [by rewrite Hfm, Hm, <- app_assoc|].
        split; [done|]. split; [lia|].
        split; [unfold checkpoint_bound; lia|]. split; [done|].
        right. split; [rewrite !length_app; simpl; lia|].
        exists ix. rewrite firstn_all. unfold write_metadata, write_index. simpl.
        by rewrite Hfm, Hm, <- app_assoc.
      * exists (F ++ current_entries st ++ [entry]), n.
        simpl. split; [by rewrite Hfm, Hm, <- app_assoc|].
        split; [rewrite length_app; lia|].
        split; [rewrite Hlen, !length_app in *; simpl in *; lia|].
        split; [unfold checkpoint_bound; lia|]. split; [done|].
        destruct Hd as [Hd|(Hpos & ix' & Hd)]; [by left|].
        right. split; [done|]. exists ix'. by rewrite take_app_le.
  - exists F, n. simpl.
    split; [done|]. split; [done|]. split; [done|]. split; [done|].
    split; [rewrite !length_app; simpl; lia|done].
Qed.

Lemma traversal_checkpoint cfg embed_texts keys metadata0 disk0 data st :
  checkpoint_inv cfg metadata0 disk0 st ->
  match for_each (process_ticker cfg embed_texts keys) data st with
  | Next st' | Raised _ st' => checkpoint_inv cfg metadata0 disk0 st'
  | Hung => True
  end.
Proof.
  revert st. apply for_each_invariant.
  intros s [ticker [files|]] Hs; simpl; [|done].
  apply for_each_invariant; [|done].
  intros s' [fname record] Hs'. unfold process_file.
  destruct (negb _); [done|].
  destruct (chunk_text _ _ _); [|done|done].
  apply for_each_invariant; [|done].
  intros s'' ic. apply stage_chunk_checkpoint.
Qed.

(** What a restart loads from the disk of a state that satisfies the
    invariant: the metadata in memory without its last [processed_chunks]
    entries. *)
Lemma checkpoint_inv_restart cfg d ix0 loaded keys nid st :
  initialize_index d = Ok (ix0, loaded, keys, nid) ->
  checkpoint_inv cfg loaded d st ->
  exists ix persisted keys' nid' unsaved,
    initialize_index (disk st) = Ok (ix, persisted, keys', nid') /\
    metadata st = persisted ++ unsaved /\
    Z.of_nat (length unsaved) = processed_chunks st /\
    processed_chunks st < checkpoint_bound cfg.
Proof.
  intros Hinit (F & n & Hm & Hn & Hp & Hb & _ & Hd).
  destruct Hd as [[Hd ->]|(Hpos & ix & Hd)].
  - exists ix0, loaded, keys, nid, F. rewrite Hd.
    split; [done|]. split; [done|]. split; [lia|done].
  - destruct (initialize_index_unchecked (disk st) ix (loaded ++ take n F))
      as (_ & mx & Hinit1 & _); [by rewrite Hd|by rewrite Hd| |].
    { destruct F; [simpl in Hn; lia|]. destruct n; [lia|].
      destruct loaded; done. }
    exists (Some ix), (loaded ++ take n F), (list_to_set (key_of <$> loaded ++ take n F)),
           (mx + 1), (drop n F).
    split; [done|]. split; [by rewrite <- app_assoc, take_drop|].
    split; [rewrite length_drop; lia|done].
Qed.

(** X7. Bounded loss. However a run ends its traversal, by returning or by
    raising, the metadata in memory is what a restart would load from the
    files as they are at that moment, followed by entries not yet
    persisted, of which there are [processed_chunks], fewer than
    [max(1, SAVE_PROGRESS_EVERY)]. *)
Theorem unsaved_work_is_bounded (cfg : Config) (embed_texts : Embedder)
    (data : DataDir) (d : Disk) ix0 loaded keys nid :
  initialize_index d = Ok (ix0, loaded, keys, nid) ->
  match for_each (process_ticker cfg embed_texts keys) data
          (start_state (ix0, loaded, keys, nid) d) with
  | Next st | Raised _ st =>
      exists ix persisted keys' nid' unsaved,
        initialize_index (disk st) = Ok (ix, persisted, keys', nid') /\
        metadata st = persisted ++ unsaved /\
        Z.of_nat (length unsaved) = processed_chunks st /\
        processed_chunks st < checkpoint_bound cfg
  | Hung => True
  end.
Proof.
  intros Hinit.
  assert (Hstart : checkpoint_inv cfg loaded d (start_state (ix0, loaded, keys, nid) d)).
  { exists [], 0%nat. simpl. rewrite app_nil_r. unfold checkpoint_bound.
    repeat split; try done; try lia. by left. }
  pose proof (traversal_checkpoint cfg embed_texts keys loaded d data _ Hstart) as Hloop.
  destruct (for_each _ data _) as [st|e st|]; [| |done];
    by apply (checkpoint_inv_restart cfg d ix0 loaded keys nid).
Qed.

(** ** The hits of a query *)

(** What an iteration that goes on adds: nothing for a row out of range,
    and for a row in range either one hit that carries the score of the
    row or one warning. *)
Lemma retrieve_hit_next data metadata st row st' :
  retrieve_hit data metadata st row = Next st' ->
  ((row.1 <? 0) || (row.1 >=? Z.of_nat (length metadata)) = true /\ st' = st) \/
  ((row.1 <? 0) || (row.1 >=? Z.of_nat (length metadata)) = false /\
   ((exists h, hits st' = hits st ++ [h] /\ hit_score h = row.2 /\
               warnings st' = warnings st) \/
    (exists w, hits st' = hits st /\ warnings st' = warnings st ++ [w]))).
Proof.
  destruct row as [vid score]. unfold retrieve_hit. simpl.
  destruct ((vid <? 0) || (vid >=? Z.of_nat (length metadata))).
  { intros [= <-]. by left. }
  destruct (Py.index metadata vid) as [entry|]; [|done].
  destruct (open_filing data (e_ticker entry) (e_accession entry)) as [record|e].
  - destruct (chunk_text (rec_text record) CHUNK_SIZE CHUNK_OVERLAP) as [chunks|e|];
      [|done|done].
    destruct (Py.index chunks (e_chunk_index entry)); [|done].
    intros [= <-]. right. split; [done|]. left. eauto.
  - destruct e; try done. intros [= <-]. right. split; [done|]. right. eauto.
Qed.

Lemma retrieve_loop_counts data metadata rows : forall st st',
  for_each (retrieve_hit data metadata) rows st = Next st' ->
  exists hs ws,
    hits st' = hits st ++ hs /\
    warnings st' = warnings st ++ ws /\
    hit_score <$> hs `sublist_of` rows.*2 /\
    (length hs + length ws)%nat
      = length (filter (fun row : Z * float =>
                          (row.1 <? 0) || (row.1 >=? Z.of_nat (length metadata)) = false)
                  rows).
Proof.
  induction rows as [|row rows IH]; intros st st'; simpl.
  { intros [= <-]. exists [], []. by rewrite !app_nil_r. }
  destruct (retrieve_hit data metadata st row) as [s|e s|] eqn:Hrow; [|done|done].
  intros Hrun. destruct (IH _ _ Hrun) as (hs & ws & Hh & Hw & Hsub & Hcount).
  apply retrieve_hit_next in Hrow
    as [[Hout ->]|[Hin [(h & Hh1 & Hs1 & Hw1)|(w & Hh1 & Hw1)]]].
  - exists hs, ws. rewrite filter_cons_False by (rewrite Hout; done).
    split; [done|]. split; [done|]. split; [by apply sublist_cons|done].
  - exists (h :: hs), ws. rewrite filter_cons_True by done.
    split; [by rewrite Hh, Hh1, <- app_assoc|]. split; [by rewrite Hw, Hw1|].
    split; [simpl; rewrite Hs1; by apply sublist_skip|simpl; lia].
  - exists hs, (w :: ws). rewrite filter_cons_True by done.
    split; [by rewrite Hh, Hh1|]. split; [by rewrite Hw, Hw1, <- app_assoc|].
    split; [by apply sublist_cons|simpl; lia].
Qed.

(** X8. Hits follow the search. When a query returns, the scores of its
    hits are, in order, a subsequence of the scores the index search
    returned (no hit is reordered or invented), and every row whose id
    lies in [0, len(metadata)) gave exactly one hit or one warning: hits
    plus warnings count those rows, so there are at most as many hits as
    rows. *)
Theorem retrieve_hits_follow_search (data : DataDir) (loaded : list IndexEntry)
    (rows : list (Z * float)) (st' : RetrieveState) :
  retrieve_hits data loaded rows = Next st' ->
  hit_score <$> hits st' `sublist_of` rows.*2 /\
  (length (hits st') + length (warnings st'))%nat
    = length (filter (fun row : Z * float =>
                        (row.1 <? 0) || (row.1 >=? Z.of_nat (length loaded)) = false)
                rows) /\
  (length (hits st') <= length rows)%nat.
Proof.
  intros Hrun. apply retrieve_loop_counts in Hrun as (hs & ws & Hh & Hw & Hsub & Hcount).
  simpl in Hh, Hw. subst. split; [done|]. split; [done|].
  pose proof (length_filter
                (fun row : Z * float =>
                   (row.1 <? 0) || (row.1 >=? Z.of_nat (length loaded)) = false) rows).
  lia.
Qed.

(** ** The retriever of the builder module *)

Lemma retrieve_loop_in_range metadata ids : forall acc,
  (forall vid, vid ∈ ids -> vid < Z.of_nat (length metadata)) ->
  IncrementalChunkEmbed.retrieve_loop metadata ids acc
  = Ok (acc ++ omap (fun vid => if vid <? 0 then None
                                else metadata !! Z.to_nat vid) ids).
Proof.
  induction ids as [|vid ids IH]; intros acc Hall; simpl.
  { by rewrite app_nil_r. }
  assert (Hrest : forall v, v ∈ ids -> v < Z.of_nat (length metadata)).
  { intros v Hv. apply Hall. by apply list_elem_of_further. }
  destruct (Z.ltb_spec vid 0) as [Hneg|Hpos]; [by apply IH|].
  destruct (index_in_range metadata vid) as (m & -> & ->).
  { split; [done|]. apply Hall. apply list_elem_of_here. }
  rewrite IH by done. by rewrite <- app_assoc.
Qed.

Lemma retrieve_loop_out_of_range metadata ids : forall acc vid,
  vid ∈ ids -> Z.of_nat (length metadata) <= vid ->
  IncrementalChunkEmbed.retrieve_loop metadata ids acc = Fails IndexError.
Proof.
  induction ids as [|v ids IH]; intros acc vid Hin Hbig.
  { by apply elem_of_nil in Hin. }
  simpl. destruct (Z.ltb_spec v 0) as [Hneg|Hpos].
  - apply (IH acc vid); [|done]. apply elem_of_cons in Hin as [->|Hin]; [lia|done].
  - destruct (Py.index metadata v) as [m|] eqn:Hm; [|done].
    apply elem_of_cons in Hin as [->|Hin]; [|by apply (IH _ vid)].
    exfalso. unfold Py.index in Hm.
    destruct (Z.leb_spec 0 v); [|lia].
    destruct (Z.ltb_spec v (Z.of_nat (length metadata))); [lia|]. simpl in Hm.
    destruct (Z.leb_spec (- Z.of_nat (length metadata)) v),
             (Z.ltb_spec v 0); simpl in Hm; try done; lia.
Qed.

Lemma omap_length_le {A B : Type} (f : A -> option B) (l : list A) :
  (length (omap f l) <= length l)%nat.
Proof.
  induction l as [|x l IH]; csimpl; [lia|].
  destruct (f x); simpl; lia.
Qed.

(** X9. The retriever of [incremental_chunk_embed.py] has only the lower
    half of the guard. When every id of the search is below the length of
    the metadata it returns [metadata[vid]] for the non-negative ids in
    search order (at most one entry per id); as soon as the search returns
    one id at or beyond that length, which happens when the index holds
    more vectors than the metadata has entries, the call raises
    [IndexError] and returns nothing. *)
Theorem builder_retrieve_bounds (loaded : list IndexEntry) (ids : list Z) :
  ((forall vid, vid ∈ ids -> vid < Z.of_nat (length loaded)) ->
   exists entries,
     IncrementalChunkEmbed.retrieve_loop loaded ids [] = Ok entries /\
     entries = omap (fun vid => if vid <? 0 then None
                                else loaded !! Z.to_nat vid) ids /\
     (length entries <= length ids)%nat) /\
  (forall vid, vid ∈ ids -> Z.of_nat (length loaded) <= vid ->
     IncrementalChunkEmbed.retrieve_loop loaded ids [] = Fails IndexError) /\
  (forall (index_search : Index -> list float -> Z -> list (Z * float))
          embed_texts d query k ix q_emb rest vid,
     metadata_file d = Some loaded ->
     index_file d = Some ix ->
     embed_texts 0%nat [query] = Some (q_emb :: rest) ->
     vid ∈ (index_search ix (normalize_L2 q_emb) k).*1 ->
     Z.of_nat (length loaded) <= vid ->
     IncrementalChunkEmbed.retrieve index_search embed_texts d query k
       = Fails IndexError).
Proof.
  split.
  { intros Hall. eexists. split; [by apply retrieve_loop_in_range|].
    split; [done|]. apply omap_length_le. }
  split.
  { intros vid. apply retrieve_loop_out_of_range. }
  intros index_search embed_texts d query k ix q_emb rest vid Hm Hi Hq Hin Hbig.
  unfold IncrementalChunkEmbed.retrieve. rewrite Hm, Hi, Hq.
  by apply (retrieve_loop_out_of_range _ _ _ vid).
Qed.

(** ** Rehydration of what the builder staged *)

Lemma assoc_elem_of {A : Type} (name : string) (a : A) (l : list (string * A)) :
  NoDup l.*1 -> (name, a) ∈ l -> assoc name l = Some a.
Proof.
  induction l as [|[n b] l IH]; intros Hnd Hin.
  { by apply elem_of_nil in Hin. }
  simpl in *. apply NoDup_cons in Hnd as [Hn Hnd].
  apply elem_of_cons in Hin as [[= <- <-]|Hin].
  - by rewrite String.eqb_refl.
  - destruct (String.eqb_spec n name) as [->|_]; [|by apply IH].
    destruct Hn. apply list_elem_of_fmap. by exists (name, a).
Qed.

Lemma thread_elem_of {A : Type} (f : Z -> A -> list IndexEntry) (l : list A) :
  forall nid e, e ∈ thread f nid l -> exists x nid', x ∈ l /\ e ∈ f nid' x.
Proof.
  induction l as [|x l IH]; intros nid e Hin; simpl in Hin.
  { by apply elem_of_nil in Hin. }
  apply elem_of_app in Hin as [Hin|Hin].
  - exists x, nid. split; [apply list_elem_of_here|done].
  - destruct (IH _ _ Hin) as (y & nid' & Hy & He).
    exists y, nid'. split; [by apply list_elem_of_further|done].
Qed.

Lemma enumerate_elem_of {A : Type} (l : list A) (i : nat) (x : A) :
  (i, x) ∈ enumerate l -> l !! i = Some x.
Proof.
  unfold enumerate. intros Hin.
  apply list_elem_of_lookup in Hin as [j Hj].
  apply lookup_zip_with_Some in Hj as (a & b & [= <- <-] & Ha & Hb).
  apply lookup_seq in Ha as [-> _]. done.
Qed.

Lemma index_nat {A : Type} (l : list A) (i : nat) (x : A) :
  l !! i = Some x -> Py.index l (Z.of_nat i) = Some x.
Proof.
  intros Hl. pose proof (lookup_lt_Some _ _ _ Hl) as Hlt.
  unfold Py.index.
  destruct (Z.leb_spec 0 (Z.of_nat i)); [|lia].
  destruct (Z.ltb_spec (Z.of_nat i) (Z.of_nat (length l))); [|lia].
  simpl. by rewrite Nat2Z.id.
Qed.

Lemma corpus_well_formed_files data ticker files :
  corpus_well_formed data = true ->
  (ticker, TickerDir files) ∈ data ->
  NoDup data.*1 /\ filed_by_accession files = true.
Proof.
  unfold corpus_well_formed. intros Hwf Hin.
  apply andb_true_iff in Hwf as [Hnd Hall].
  apply bool_decide_eq_true in Hnd. split; [done|].
  rewrite forallb_forall in Hall.
  apply (Hall (ticker, TickerDir files)). by apply list_elem_of_In.
Qed.

(** An entry staged for a file of a well-formed corpus names that file and
    one of its chunks. *)
Lemma data_entries_origin keys nid data e :
  corpus_well_formed data = true ->
  e ∈ data_entries keys nid data ->
  exists record chunks text,
    open_filing data (e_ticker e) (e_accession e) = Ok record /\
    chunk_text (rec_text record) CHUNK_SIZE CHUNK_OVERLAP = Returns chunks /\
    0 <= e_chunk_index e < Z.of_nat (length chunks) /\
    chunks !! Z.to_nat (e_chunk_index e) = Some text /\
    Py.index chunks (e_chunk_index e) = Some text /\
    e_filing_date e = rec_filing_date record /\
    e_form e = rec_form record /\
    (e_ticker e, e_accession e, e_chunk_index e) ∉ keys.
Proof.
  intros Hwf Hin. unfold data_entries in Hin.
  apply thread_elem_of in Hin as ([ticker node] & n1 & Hdir & Hin).
  unfold ticker_entries in Hin. simpl in Hin.
  destruct node as [files|]; [|by apply elem_of_nil in Hin].
  destruct (corpus_well_formed_files _ _ _ Hwf Hdir) as [Hnd Hfiles].
  apply thread_elem_of in Hin as ([fname record] & n2 & Hfile & Hin).
  unfold file_entries in Hin. simpl in Hin.
  destruct (endswith fname ".json") eqn:Hjson; simpl in Hin;
    [|by apply elem_of_nil in Hin].
  destruct (chunk_text (rec_text record) CHUNK_SIZE CHUNK_OVERLAP)
    as [chunks| |] eqn:Hchunks; try by apply elem_of_nil in Hin.
  apply thread_elem_of in Hin as ([idx chunk] & n3 & Hic & Hin).
  unfold chunk_entries in Hin. simpl in Hin.
  destruct (bool_decide _) eqn:Hkey; [by apply elem_of_nil in Hin|].
  apply bool_decide_eq_false in Hkey.
  apply list_elem_of_singleton in Hin as ->. simpl.
  apply enumerate_elem_of in Hic.
  unfold filed_by_accession in Hfiles.
  apply andb_true_iff in Hfiles as [Hfnd Hnames].
  apply bool_decide_eq_true in Hfnd.
  rewrite forallb_forall in Hnames.
  specialize (Hnames (fname, record) ltac:(by apply list_elem_of_In)).
  simpl in Hnames. rewrite Hjson in Hnames. simpl in Hnames.
  apply String.eqb_eq in Hnames.
  exists record, chunks, chunk.
  split.
  { unfold open_filing. rewrite (assoc_elem_of _ _ _ Hnd Hdir).
    rewrite <- Hnames. by rewrite (assoc_elem_of _ _ _ Hfnd Hfile). }
  split; [done|].
  pose proof (lookup_lt_Some _ _ _ Hic).
  split; [lia|]. rewrite Nat2Z.id.
  split; [done|]. split; [by apply index_nat|done].
Qed.

(** X10. What the builder stages can be read back. For a corpus laid out as
    [download_filings.py] writes it (each [.json] file named after the
    accession of its record, names of a listing distinct), every entry that
    a run stages, whatever the key set and the first id, is rehydrated by
    [load_chunk_text] without an exception: the file it names opens, and
    the text returned is the chunk number [chunk_index] of that record,
    the filing date and the form of the entry being those of the record. *)
Theorem staged_entries_rehydrate (keys : gset ChunkKey) (nid : Z)
    (data : DataDir) (e : IndexEntry) :
  corpus_well_formed data = true ->
  e ∈ data_entries keys nid data ->
  exists record chunks text,
    open_filing data (e_ticker e) (e_accession e) = Ok record /\
    chunk_text (rec_text record) CHUNK_SIZE CHUNK_OVERLAP = Returns chunks /\
    chunks !! Z.to_nat (e_chunk_index e) = Some text /\
    load_chunk_text data e = Returns text /\
    e_filing_date e = rec_filing_date record /\
    e_form e = rec_form record /\
    key_of e ∉ keys.
Proof.
  intros Hwf Hin.
  destruct (data_entries_origin _ _ _ _ Hwf Hin)
    as (record & chunks & text & Hopen & Hchunks & _ & Hlook & Hidx & Hdate & Hform & Hkey).
  exists record, chunks, text. unfold load_chunk_text.
  rewrite Hopen, Hchunks, Hidx. done.
Qed.

(** ** A query over a store built from the corpus *)

Lemma in_range_bounds metadata (row : Z * float) :
  in_range metadata row = true <-> 0 <= row.1 < Z.of_nat (length metadata).
Proof.
  unfold in_range. rewrite negb_true_iff, orb_false_iff, Z.ltb_ge.
  unfold Z.geb. destruct (Z.compare_spec row.1 (Z.of_nat (length metadata)));
    split; intros; try lia; split; try done; lia.
Qed.

(** A row in range whose entry can be rehydrated gives its hit. *)
Lemma retrieve_hit_rehydrates data metadata st vid score entry text :
  in_range metadata (vid, score) = true ->
  metadata !! Z.to_nat vid = Some entry ->
  load_chunk_text data entry = Returns text ->
  exists h,
    retrieve_hit data metadata st (vid, score)
      = Next (mkRetrieve (hits st ++ [h]) (warnings st) (derefs st ++ [vid])) /\
    hit_score h = score /\ hit_id h = e_id entry /\
    key_of entry = (hit_ticker h, hit_accession h, hit_chunk_index h) /\
    hit_text h = text.
Proof.
  intros Hin Hlook Htext. unfold retrieve_hit.
  pose proof (proj1 (in_range_bounds _ _) Hin) as Hb. simpl in Hb.
  unfold in_range in Hin. simpl in Hin. apply negb_true_iff in Hin. rewrite Hin.
  destruct (index_in_range metadata vid Hb) as (entry' & -> & Hlook').
  rewrite Hlook in Hlook'. injection Hlook' as <-.
  unfold load_chunk_text in Htext.
  destruct (open_filing data (e_ticker entry) (e_accession entry))
    as [record|err]; [|done].
  destruct (chunk_text (rec_text record) CHUNK_SIZE CHUNK_OVERLAP)
    as [chunks| |]; [|done|done].
  destruct (Py.index chunks (e_chunk_index entry)) as [t|]; [|done].
  injection Htext as ->. eexists. split; [done|]. done.
Qed.

(** Over metadata all of whose entries can be rehydrated, every row in
    range gives its hit, in the order of the rows, and nothing else
    happens. *)
Lemma retrieve_loop_rehydrates data metadata rows :
  (forall entry, entry ∈ metadata ->
     exists text, load_chunk_text data entry = Returns text) ->
  forall st, exists hs,
    for_each (retrieve_hit data metadata) rows st
      = Next (mkRetrieve (hits st ++ hs) (warnings st)
                (derefs st ++ (filter (in_range metadata) rows).*1)) /\
    Forall2 (fun (h : Hit) (row : Z * float) =>
               hit_score h = row.2 /\ 0 <= row.1 /\
               exists entry,
                 metadata !! Z.to_nat row.1 = Some entry /\
                 hit_id h = e_id entry /\
                 key_of entry = (hit_ticker h, hit_accession h, hit_chunk_index h) /\
                 load_chunk_text data entry = Returns (hit_text h))
      hs (filter (in_range metadata) rows).
Proof.
  intros Hall. induction rows as [|[vid score] rows IH]; intros st.
  { exists []. simpl. rewrite !app_nil_r. split; [by destruct st|constructor]. }
  cbn [for_each].
  destruct (in_range metadata (vid, score)) eqn:Hin.
  - rewrite filter_cons_True by (by rewrite Hin).
    pose proof (proj1 (in_range_bounds _ _) Hin) as Hb. simpl in Hb.
    destruct (index_in_range metadata vid Hb) as (entry & _ & Hlook).
    destruct (Hall entry) as [text Htext].
    { by apply list_elem_of_lookup_2 in Hlook. }
    destruct (retrieve_hit_rehydrates data metadata st vid score entry text
                Hin Hlook Htext) as (h & -> & Hs & Hi & Hk & Ht).
    destruct (IH (mkRetrieve (hits st ++ [h]) (warnings st) (derefs st ++ [vid])))
      as (hs & -> & Hhs).
    exists (h :: hs). simpl. rewrite <- !app_assoc. split; [done|].
    constructor; [|done]. simpl. split; [done|]. split; [lia|].
    exists entry. rewrite Ht. done.
  - rewrite filter_cons_False by (rewrite Hin; exact id).
    assert (Hstep : retrieve_hit data metadata st (vid, score) = Next st).
    { unfold retrieve_hit. unfold in_range in Hin. simpl in Hin.
      apply negb_false_iff in Hin. by rewrite Hin. }
    rewrite Hstep. apply IH.
Qed.

(** X11. A store built from a corpus answers from that corpus. After a
    completed run that started without a persisted store, over a corpus
    laid out as [download_filings.py] writes it, a query of [query_rag.py]
    over the metadata of that run and the same corpus never raises and logs
    no warning, whatever rows the search returns: it gives one hit per row
    whose id is a position of the metadata, in the order of the rows, with
    the score and the id of that row, the key of the entry at that
    position, and as text what [load_chunk_text] returns for that entry. *)
Theorem fresh_store_answers_every_row (cfg : Config) (embed_texts : Embedder)
    (data : DataDir) (d : Disk) (st1 : BuildState) (rows : list (Z * float)) :
  metadata_file d = None \/ index_file d = None ->
  corpus_well_formed data = true ->
  update_embeddings cfg embed_texts data d = Next st1 ->
  exists rs,
    retrieve_hits data (metadata st1) rows = Next rs /\
    warnings rs = [] /\
    derefs rs = (filter (in_range (metadata st1)) rows).*1 /\
    Forall2 (fun (h : Hit) (row : Z * float) =>
               hit_id h = row.1 /\ hit_score h = row.2 /\
               exists entry,
                 metadata st1 !! Z.to_nat row.1 = Some entry /\
                 key_of entry = (hit_ticker h, hit_accession h, hit_chunk_index h) /\
                 load_chunk_text data entry = Returns (hit_text h))
      (hits rs) (filter (in_range (metadata st1)) rows).
Proof.
  intros Hnew Hwf Hrun.
  assert (Hinit : initialize_index d = Ok (None, [], ∅, 0)).
  { unfold initialize_index.
    destruct Hnew as [-> | ->]; [done|]. by destruct (metadata_file d). }
  destruct (update_embeddings_completed _ _ _ _ _ Hrun)
    as (ix & loaded & keys & nid & Hinit' & Hm & _).
  rewrite Hinit in Hinit'. injection Hinit' as <- <- <- <-. simpl in Hm.
  destruct (retrieve_loop_rehydrates data (metadata st1) rows) with
    (st := mkRetrieve [] [] []) as (hs & Hq & Hhs).
  { intros entry Hin. rewrite Hm in Hin.
    destruct (data_entries_origin _ _ _ _ Hwf Hin)
      as (record & chunks & text & Hopen & Hchunks & _ & _ & Hidx & _).
    exists text. unfold load_chunk_text. by rewrite Hopen, Hchunks, Hidx. }
  simpl in Hq. eexists. split; [exact Hq|]. simpl.
  split; [done|]. split; [done|].
  eapply Forall2_impl; [exact Hhs|].
  intros h row (Hs & H0 & entry & Hlook & Hi & Hk & Ht).
  split; [|split; [done|by exists entry]].
  assert (Hid : (e_id <$> metadata st1) !! Z.to_nat row.1 = Some (e_id entry)).
  { by rewrite list_lookup_fmap, Hlook. }
  rewrite Hm, data_entries_ids in Hid. apply lookup_seqZ in Hid. lia.
Qed.

(** ** The chunks cover the text *)

Lemma stitch_snoc ov (chunks : list (list token)) c :
  chunks <> [] ->
  stitch ov (chunks ++ [c]) = stitch ov chunks ++ drop (Z.to_nat ov) c.
Proof.
  destruct chunks as [|c0 rest]; [done|]. intros _. simpl.
  rewrite fmap_app, concat_app. simpl. by rewrite app_nil_r, <- app_assoc.
Qed.

(** The first [k] windows of a run of the loop, stitched, are the tokens up
    to the end of the last of them. *)
Lemma stitch_windows (tokens : list token) cs ov m :
  0 <= ov < cs ->
  tokens <> [] ->
  (0 < m)%nat ->
  window_end (Z.of_nat (length tokens)) cs ov (pred m) = Z.of_nat (length tokens) ->
  (forall i, (S i < m)%nat -> window_start cs ov i + cs < Z.of_nat (length tokens)) ->
  forall k, (k < m)%nat ->
    stitch ov (windows tokens cs ov (S k))
    = take (Z.to_nat (window_end (Z.of_nat (length tokens)) cs ov k)) tokens.
Proof.
  intros Hcfg Hne Hm Hlast Hfull k. induction k as [|k IH]; intros Hk.
  - destruct (window_bounds tokens cs ov m 0 Hcfg Hne Hm Hlast Hfull Hk)
      as (H0 & H1 & H2 & H3).
    unfold windows. simpl. rewrite app_nil_r.
    rewrite slice_in_range by lia.
    unfold window_start in *. simpl in *. rewrite Z.sub_0_r. done.
  - rewrite windows_S, stitch_snoc.
    2:{ intros Hnil. apply (f_equal length) in Hnil.
        rewrite windows_length in Hnil. done. }
    rewrite IH by lia.
    destruct (window_bounds tokens cs ov m (S k) Hcfg Hne Hm Hlast Hfull Hk)
      as (H0 & H1 & H2 & H3).
    pose proof (Hfull k ltac:(lia)) as Hprev.
    assert (Hend : window_end (Z.of_nat (length tokens)) cs ov k
                   = window_start cs ov (S k) + ov).
    { unfold window_end, window_start in *. rewrite Nat2Z.inj_succ. lia. }
    assert (Hmore : window_start cs ov (S k) + ov
                    < window_end (Z.of_nat (length tokens)) cs ov (S k)).
    { unfold window_end, window_start in *.
      rewrite Nat2Z.inj_succ in *. lia. }
    rewrite slice_in_range by lia. rewrite Hend.
    rewrite skipn_firstn_comm, drop_drop.
    replace (Z.to_nat (window_start cs ov (S k)) + Z.to_nat ov)%nat
      with (Z.to_nat (window_start cs ov (S k) + ov)) by lia.
    rewrite take_take_drop. f_equal. lia.
Qed.

Lemma chunk_count_windows (len cs ov : Z) (m : nat) :
  0 <= ov < cs ->
  0 < len ->
  (0 < m)%nat ->
  len <= Z.of_nat (pred m) * (cs - ov) + cs ->
  (forall i, (S i < m)%nat -> Z.of_nat i * (cs - ov) + cs < len) ->
  Z.of_nat m = chunk_count len cs ov.
Proof.
  intros Hcfg Hlen Hm Hlast Hfull. unfold chunk_count.
  destruct (Z.eqb_spec len 0); [lia|].
  set (step := cs - ov) in *. assert (Hstep : 0 < step) by (unfold step; lia).
  set (r := Z.max 0 (len - cs)).
  assert (Hq : (r + step - 1) / step = Z.of_nat (pred m)); [|lia].
  symmetry. apply Z.div_unique with (r := r + step - 1 - Z.of_nat (pred m) * step).
  - left. split.
    + destruct m as [|[|m']]; [lia| |].
      * simpl. unfold r. lia.
      * specialize (Hfull m' ltac:(lia)). simpl pred.
        rewrite Nat2Z.inj_succ. unfold r. nia.
    + simpl in Hlast. unfold r. nia.
  - lia.
Qed.

(** X12. The chunks cover the text. For [0 <= overlap < chunk_size] the
    chunker returns chunks from which the token sequence is recovered: the
    first chunk followed by each later chunk without its first [overlap]
    tokens is the encoded text, so no token is lost or repeated beyond the
    overlap; every chunk after the first has more than [overlap] tokens
    (it adds at least one token); and the number of chunks is
    [ceil(max(0, len - chunk_size) / (chunk_size - overlap)) + 1] for a
    text of [len > 0] tokens, 0 for a text without tokens. *)
Theorem chunk_text_covers (text : string) (chunk_size overlap : Z) :
  0 <= overlap < chunk_size ->
  exists chunks : list (list token),
    chunk_text text chunk_size overlap = Returns (decode <$> chunks) /\
    stitch overlap chunks = encode text /\
    (forall j c, chunks !! S j = Some c -> overlap < Z.of_nat (length c)) /\
    Z.of_nat (length chunks)
      = chunk_count (Z.of_nat (length (encode text))) chunk_size overlap.
Proof.
  intros Hcfg. set (tokens := encode text).
  destruct (chunk_tokens_windows tokens chunk_size overlap Hcfg)
    as (m & Hrun & Hnil & Hne & Hfull).
  exists (windows tokens chunk_size overlap m).
  split. { unfold chunk_text, chunk_call. fold tokens. by rewrite Hrun. }
  rewrite windows_length.
  destruct (decide (tokens = [])) as [Hempty|Hsome].
  { rewrite (Hnil Hempty), Hempty. split; [done|]. split; [|done].
    intros j c Hc. done. }
  destruct (Hne Hsome) as [Hm Hlast].
  assert (Hlen : 0 < Z.of_nat (length tokens)).
  { destruct tokens; [done|]. simpl. lia. }
  split.
  { destruct m as [|k]; [lia|].
    rewrite (stitch_windows tokens chunk_size overlap (S k) Hcfg Hsome Hm Hlast Hfull k)
      by lia.
    simpl in Hlast. rewrite Hlast, Nat2Z.id. apply firstn_all. }
  split.
  { intros j c Hc.
    assert (Hj : (S j < m)%nat).
    { apply lookup_lt_Some in Hc. by rewrite windows_length in Hc. }
    rewrite windows_lookup in Hc by done. injection Hc as <-.
    destruct (window_bounds tokens chunk_size overlap m (S j) Hcfg Hsome Hm Hlast Hfull Hj)
      as (H0 & H1 & H2 & H3).
    rewrite slice_length by lia.
    pose proof (Hfull j Hj) as Hprev.
    unfold window_end, window_start in *. rewrite Nat2Z.inj_succ in *. lia. }
  apply chunk_count_windows; try done.
  unfold window_end, window_start in Hlast. lia.
Qed.

(** ** The [/ask] endpoint *)





(** ** [answer_rag] over a store built from the corpus *)

Lemma load_contexts_all data hits :
  (forall h, h ∈ hits -> exists c, load_chunk_text data h = Returns c) ->
  exists contexts,
    IncrementalChunkEmbed.load_contexts data hits = Returns contexts /\
    Forall2 (fun h c => load_chunk_text data h = Returns c) hits contexts.
Proof.
  induction hits as [|h hits IH]; intros Hall; simpl.
  { exists []. split; [done|constructor]. }
  destruct (Hall h) as [c Hc]; [apply list_elem_of_here|].
  destruct IH as (cs & Hcs & Hall2).
  { intros h' Hh'. apply Hall. by apply list_elem_of_further. }
  exists (c :: cs). rewrite Hc, Hcs. split; [done|]. by constructor.
Qed.

(** The first exception of a rehydration is the exception of the call. *)
Lemma load_contexts_raises data hits1 h hits2 e :
  (forall h', h' ∈ hits1 -> exists c, load_chunk_text data h' = Returns c) ->
  load_chunk_text data h = Raises e ->
  IncrementalChunkEmbed.load_contexts data (hits1 ++ h :: hits2) = Raises e.
Proof.
  induction hits1 as [|h1 hits1 IH]; intros Hall He; simpl.
  { by rewrite He. }
  destruct (Hall h1) as [c ->]; [apply list_elem_of_here|].
  rewrite IH; [done| |done].
  intros h' Hh'. apply Hall. by apply list_elem_of_further.
Qed.

(** X14. [answer_rag] over a store it has just built. After a completed
    run that started without a persisted store and indexed at least one
    chunk of a corpus laid out as [download_filings.py] writes it, if the
    search returns only ids stored in the index or the padding id -1, then
    [answer_rag] reaches the chat model: [retrieve] returns the entries at
    the non-negative ids in search order, each of them is rehydrated
    without an exception, and the chat model is called exactly once, with
    the rehydrated texts joined by the separator as context; the result is
    the answer of that call, or its exception. *)
Theorem answer_rag_over_fresh_store
    (index_search : Index -> list float -> Z -> list (Z * float))
    (chat : ChatModel) (cfg : Config) (embed_build embed_query : Embedder)
    (data : DataDir) (d0 : Disk) (st1 : BuildState) (query : string) (k : Z)
    (q_emb : list float) (rest : list (list float)) :
  metadata_file d0 = None \/ index_file d0 = None ->
  corpus_well_formed data = true ->
  update_embeddings cfg embed_build data d0 = Next st1 ->
  metadata st1 <> [] ->
  embed_query 0%nat [query] = Some (q_emb :: rest) ->
  (forall ix vid, index_file (disk st1) = Some ix ->
     vid ∈ (index_search ix (normalize_L2 q_emb) k).*1 ->
     vid = -1 \/ vid ∈ ids ix) ->
  exists ix hits contexts,
    disk st1 = mkDisk (Some ix) (Some (metadata st1)) /\
    IncrementalChunkEmbed.retrieve index_search embed_query (disk st1) query k
      = Ok hits /\
    hits = omap (fun vid => if vid <? 0 then None
                            else metadata st1 !! Z.to_nat vid)
             (index_search ix (normalize_L2 q_emb) k).*1 /\
    Forall2 (fun h c => load_chunk_text data h = Returns c) hits contexts /\
    IncrementalChunkEmbed.answer_rag index_search chat embed_query data
      (disk st1) query k
    = (match chat "gpt-3.5-turbo" "You are a financial assistant."
               ("Context:" ++ nl ++ join context_separator contexts
                  ++ nl ++ nl ++ "Q: " ++ query)%string with
       | Some content => Returns content
       | None => Raises CollaboratorFailure
       end, 1%nat).
Proof.
  intros Hnew Hwf Hrun Hsome Hq Hsearch.
  assert (Hinit : initialize_index d0 = Ok (None, [], ∅, 0)).
  { unfold initialize_index.
    destruct Hnew as [-> | ->]; [done|]. by destruct (metadata_file d0). }
  destruct (update_embeddings_completed _ _ _ _ _ Hrun)
    as (ix0 & loaded & keys & nid & Hinit' & Hm & Hi & _ & Hsaved).
  rewrite Hinit in Hinit'. injection Hinit' as <- <- <- <-.
  simpl in Hm, Hi.
  destruct Hsaved as (ix & Hix & Hdisk); [by rewrite <- Hm|].
  rewrite Hix in Hi. simpl in Hi. rewrite data_entries_ids, <- Hm in Hi.
  set (rows := index_search ix (normalize_L2 q_emb) k).
  assert (Hbound : forall vid, vid ∈ rows.*1 ->
                     vid < Z.of_nat (length (metadata st1))).
  { intros vid Hvid. destruct (Hsearch ix vid) as [-> | Hin]; [by rewrite Hdisk|done|lia|].
    rewrite Hi in Hin. apply elem_of_seqZ in Hin. lia. }
  pose proof (retrieve_loop_in_range (metadata st1) rows.*1 [] Hbound) as Hloop.
  simpl in Hloop.
  set (hits := omap (fun vid => if vid <? 0 then None
                                else metadata st1 !! Z.to_nat vid) rows.*1) in *.
  destruct (load_contexts_all data hits) as (contexts & Hload & Hall).
  { intros h Hh. apply list_elem_of_omap in Hh as (vid & _ & Hlook).
    destruct (vid <? 0); [done|].
    apply list_elem_of_lookup_2 in Hlook. rewrite Hm in Hlook.
    destruct (data_entries_origin _ _ _ _ Hwf Hlook)
      as (record & chunks & text & Hopen & Hchunks & _ & _ & Hidx & _).
    exists text. unfold load_chunk_text. by rewrite Hopen, Hchunks, Hidx. }
  assert (Hret : IncrementalChunkEmbed.retrieve index_search embed_query
                   (disk st1) query k = Ok hits).
  { unfold IncrementalChunkEmbed.retrieve. rewrite Hdisk. simpl. by rewrite Hq. }
  exists ix, hits, contexts.
  split; [done|]. split; [done|]. split; [done|]. split; [done|].
  unfold IncrementalChunkEmbed.answer_rag. rewrite Hret, Hload.
  cbv beta iota zeta. by destruct (chat _ _ _).
Qed.

End Proofs.

(** * Examples, witnesses and counterexamples *)

#[local] Existing Instance example_external.

(** ** Chunker *)

Example chunk_call_8_3_1 :
  chunk_call [1; 2; 3; 4; 5; 6; 7; 8] 3 1
  = Returns [[1; 2; 3]; [3; 4; 5]; [5; 6; 7]; [7; 8]].
Proof. reflexivity. Qed.

Example chunk_text_exact_fit :
  chunk_text "abcde" 3 1 = Returns ["abc"; "cde"]%string.
Proof. reflexivity. Qed.




(** With more tokens than one window and [overlap >= chunk_size] the loop
    never exits. *)
Example chunk_call_hangs : chunk_call [1; 2; 3] 2 2 = Diverges.
Proof. reflexivity. Qed.

(** ** Opening and persisting *)

(** C1 fails as stated: an index of two vectors next to a metadata list of
    one entry is opened without complaint. *)
Lemma initialize_index_accepts_mismatch :
  store_disagrees (mkIndex 2 [0; 1] [[1; 0]; [0; 1]]) [Example.entry 0 "0001"] /\
  initialize_index Example.mismatched_disk
    = Ok (Some (mkIndex 2 [0; 1] [[1; 0]; [0; 1]]),
               [Example.entry 0 "0001"],
               list_to_set (key_of <$> [Example.entry 0 "0001"]),
               1) /\
  initialize_index Example.mismatched_disk <> Fails CorruptState.
Proof.
  split; [left; unfold ntotal; simpl; lia|]. split; [reflexivity|discriminate].
Qed.

Lemma initialize_index_unchecked_witness :
  index_file Example.mismatched_disk = Some (mkIndex 2 [0; 1] [[1; 0]; [0; 1]]) /\
  metadata_file Example.mismatched_disk = Some [Example.entry 0 "0001"] /\
  [Example.entry 0 "0001"] <> [] /\
  initialize_index Example.mismatched_disk <> Fails CorruptState /\
  exists mx,
    initialize_index Example.mismatched_disk
      = Ok (Some (mkIndex 2 [0; 1] [[1; 0]; [0; 1]]),
                 [Example.entry 0 "0001"],
                 list_to_set (key_of <$> [Example.entry 0 "0001"]),
                 mx + 1) /\
    mx ∈ e_id <$> [Example.entry 0 "0001"] /\
    (forall m, m ∈ [Example.entry 0 "0001"] -> e_id m <= mx).
Proof.
  split; [reflexivity|]. split; [reflexivity|]. split; [discriminate|].
  apply initialize_index_unchecked; [reflexivity|reflexivity|discriminate].
Defined.

(** C6 fails as stated: while a second vector and its entry are persisted,
    the disk holds the index of two vectors next to the metadata of one,
    which is neither the old pair nor the new pair. *)
Lemma save_index_metadata_not_atomic :
  mkDisk (Some Example.index_two) (Some [Example.entry 0 "0001"])
    ∈ save_trace (Some Example.index_two)
        [Example.entry 0 "0001"; Example.entry 1 "0002"] Example.disk_one /\
  ~ old_or_new Example.index_two
      [Example.entry 0 "0001"; Example.entry 1 "0002"] Example.disk_one
      (mkDisk (Some Example.index_two) (Some [Example.entry 0 "0001"])).
Proof.
  split; [apply list_elem_of_here|]. intros [H|H]; discriminate H.
Qed.

(** ** Builder *)

Example first_run_indexes_both_filings :
  match update_embeddings Example.eager Example.embed_ok Example.data Example.no_files with
  | Next st =>
      metadata st = [Example.entry 0 "0001"; Example.entry 1 "0002"] /\
      index_ids (index st) = [0; 1] /\
      metadata_file (disk st) = Some (metadata st) /\
      index_file (disk st) = index st /\
      calls st = 2%nat
  | _ => False
  end.
Proof. vm_compute. done. Qed.

Example failed_flush_keeps_last_persist :
  match update_embeddings Example.eager Example.embed_fails_second Example.data
          Example.no_files with
  | Raised e st =>
      e = CollaboratorFailure /\
      metadata st = [Example.entry 0 "0001"] /\
      index_ids (index st) = [0] /\
      disk st = Example.disk_one /\
      current_entries st = [Example.entry 1 "0002"]
  | _ => False
  end.
Proof. vm_compute. done. Qed.

Example retry_adds_the_missing_chunk :
  match update_embeddings Example.pairs Example.embed_ok Example.data Example.disk_one with
  | Next st =>
      metadata st = [Example.entry 0 "0001"; Example.entry 1 "0002"] /\
      index_ids (index st) = [0; 1] /\
      calls st = 1%nat
  | _ => False
  end.
Proof. vm_compute. done. Qed.

(** A first run from an empty disk, then a second run with the embedder
    down: the second run returns with what it loaded. *)
Lemma update_embeddings_idempotent_witness :
  exists st1,
    update_embeddings Example.eager Example.embed_ok Example.data Example.no_files
      = Next st1 /\
    exists ix loaded keys nid,
      initialize_index (disk st1) = Ok (ix, loaded, keys, nid) /\
      keys = list_to_set (key_of <$> loaded) /\
      (forall k, k ∈ corpus_keys Example.data -> k ∈ keys) /\
      data_entries keys nid Example.data = [] /\
      update_embeddings Example.pairs Example.embed_down Example.data (disk st1)
        = Next {| index := ix; metadata := loaded; next_id := nid;
                  current_chunks := []; current_entries := [];
                  total_new_chunks := 0; processed_chunks := 0;
                  disk := disk st1; calls := 0 |}.
Proof.
  eexists. split; [vm_compute; reflexivity|].
  apply (update_embeddings_idempotent Example.eager Example.pairs Example.embed_ok
           Example.embed_down Example.data Example.no_files).
  vm_compute. reflexivity.
Defined.

(** A consistent persisted store stays consistent through a run. *)
Lemma index_metadata_invariant_witness :
  disk_consistent Example.disk_one /\
  match update_embeddings Example.pairs Example.embed_ok Example.data Example.disk_one with
  | Next st | Raised _ st => store_inv st
  | Hung => True
  end.
Proof.
  assert (Hd : disk_consistent Example.disk_one) by (intros i; reflexivity).
  split; [exact Hd|].
  destruct (index_metadata_invariant Example.pairs Example.embed_ok) as (_ & _ & _ & Hrun).
  apply Hrun. exact Hd.
Defined.


(** ** Retriever *)

Example retrieve_skips_gap_and_bad_ids :
  match retrieve_hits Example.data Example.metadata_with_gap
          [(1, 9); (-1, 0); (5, 8); (2, 7); (0, 6)] with
  | Next st =>
      hit_id <$> hits st = [2; 0] /\
      hit_score <$> hits st = [7; 6] /\
      hit_text <$> hits st = ["services grew"; "net sales rose"]%string /\
      warnings st = [("AAPL"%string, Some "0009"%string)] /\
      derefs st = [1; 2; 0]
  | _ => False
  end.
Proof. vm_compute. done. Qed.

(** The rehydration of [answer_rag] has no handler for a missing file. *)
Example load_chunk_text_propagates :
  load_chunk_text Example.data (Example.entry 1 "0009") = Raises FileNotFoundError /\
  load_chunk_text Example.data (Example.entry 0 "0001") = Returns "net sales rose"%string.
Proof. split; reflexivity. Qed.


(** The padding id -1 of faiss and an id beyond the metadata. *)
Lemma retrieve_bounds_guard_witness :
  ((-1, 0).1 < 0 \/ Z.of_nat (length Example.metadata_with_gap) <= (-1, 0).1) /\
  retrieve_hit Example.data Example.metadata_with_gap (mkRetrieve [] [] []) (-1, 0)
    = Next (mkRetrieve [] [] []) /\
  retrieve_hit Example.data Example.metadata_with_gap (mkRetrieve [] [] []) (5, 8)
    = Next (mkRetrieve [] [] []).
Proof.
  destruct (retrieve_bounds_guard Example.data Example.metadata_with_gap [])
    as (Hskip & _).
  split; [left; simpl; lia|].
  split; apply Hskip; simpl; lia.
Defined.

(** ** Further properties: witnesses *)


(** A first run over the two filings, from no files. *)
Lemma update_embeddings_fresh_ids_witness :
  exists st1,
    update_embeddings Example.eager Example.embed_ok Example.data Example.no_files
      = Next st1 /\
    exists ix loaded keys nid added,
      initialize_index Example.no_files = Ok (ix, loaded, keys, nid) /\
      metadata st1 = loaded ++ added /\
      e_id <$> added = seqZ nid (Z.of_nat (length added)) /\
      (forall m, m ∈ loaded -> e_id m < nid) /\
      (forall m, m ∈ added -> nid <= e_id m) /\
      (NoDup (e_id <$> loaded) -> NoDup (e_id <$> metadata st1)).
Proof.
  eexists. split; [vm_compute; reflexivity|].
  apply (update_embeddings_fresh_ids Example.eager Example.embed_ok Example.data
           Example.no_files).
  vm_compute. reflexivity.
Defined.

Lemma update_embeddings_positional_ids_witness :
  initialize_index Example.no_files = Ok (None, [], ∅, 0) /\
  exists st1,
    update_embeddings Example.eager Example.embed_ok Example.data Example.no_files
      = Next st1 /\
    e_id <$> metadata st1 = seqZ 0 (Z.of_nat (length (metadata st1))) /\
    (forall vid entry, 0 <= vid -> Py.index (metadata st1) vid = Some entry ->
       e_id entry = vid).
Proof.
  split; [reflexivity|].
  eexists. split; [vm_compute; reflexivity|].
  destruct (update_embeddings_positional_ids Example.eager Example.embed_ok
              Example.data Example.no_files _ None [] ∅ 0 eq_refl eq_refl
              ltac:(vm_compute; reflexivity)) as (H1 & _ & H3).
  split; [exact H1|exact H3].
Defined.

Lemma update_embeddings_unique_keys_witness :
  initialize_index Example.no_files = Ok (None, [], ∅, 0) /\
  NoDup (corpus_keys Example.data) /\
  exists st1,
    update_embeddings Example.eager Example.embed_ok Example.data Example.no_files
      = Next st1 /\
    NoDup (key_of <$> metadata st1).
Proof.
  assert (Hcorpus : NoDup (corpus_keys Example.data)).
  { change (NoDup (A:=string * option string * Z) (corpus_keys Example.data)).
    apply (bool_decide_unpack _). vm_compute. exact I. }
  split; [reflexivity|]. split; [exact Hcorpus|].
  eexists. split; [vm_compute; reflexivity|].
  apply (update_embeddings_unique_keys Example.eager Example.embed_ok Example.data
           Example.no_files _ None [] ∅ 0 eq_refl).
  - constructor.
  - exact Hcorpus.
  - vm_compute. reflexivity.
Defined.

(** Flushing every two chunks and persisting every four, over the store of
    one vector. *)
Lemma unsaved_work_is_bounded_witness :
  initialize_index Example.disk_one
    = Ok (Some Example.index_one, [Example.entry 0 "0001"],
          list_to_set (key_of <$> [Example.entry 0 "0001"]), 1) /\
  match for_each
          (process_ticker (mkConfig 1 4) Example.embed_ok
             (list_to_set (key_of <$> [Example.entry 0 "0001"])))
          Example.data
          (start_state (Some Example.index_one, [Example.entry 0 "0001"],
                        list_to_set (key_of <$> [Example.entry 0 "0001"]), 1)
             Example.disk_one) with
  | Next st | Raised _ st =>
      exists ix persisted keys' nid' unsaved,
        initialize_index (disk st) = Ok (ix, persisted, keys', nid') /\
        metadata st = persisted ++ unsaved /\
        Z.of_nat (length unsaved) = processed_chunks st /\
        processed_chunks st < checkpoint_bound (mkConfig 1 4)
  | Hung => True
  end.
Proof.
  split; [reflexivity|].
  apply (unsaved_work_is_bounded (mkConfig 1 4) Example.embed_ok Example.data
           Example.disk_one).
  reflexivity.
Defined.

Example one_flush_waits_for_the_checkpoint :
  match for_each
          (process_ticker (mkConfig 1 4) Example.embed_ok
             (list_to_set (key_of <$> [Example.entry 0 "0001"])))
          Example.data
          (start_state (Some Example.index_one, [Example.entry 0 "0001"],
                        list_to_set (key_of <$> [Example.entry 0 "0001"]), 1)
             Example.disk_one) with
  | Next st =>
      metadata st = [Example.entry 0 "0001"; Example.entry 1 "0002"] /\
      disk st = Example.disk_one /\
      processed_chunks st = 1
  | _ => False
  end.
Proof. vm_compute. done. Qed.

(** A search that returns five rows over metadata of three entries, one of
    which points to a filing that is not on disk. *)
Lemma retrieve_hits_follow_search_witness :
  exists st',
    retrieve_hits Example.data Example.metadata_with_gap Example.search_rows
      = Next st' /\
    hit_score <$> hits st' `sublist_of` [9; 0; 8; 7; 6] /\
    (length (hits st') + length (warnings st'))%nat = 3%nat /\
    (length (hits st') <= 5)%nat.
Proof.
  eexists. split; [vm_compute; reflexivity|].
  apply (retrieve_hits_follow_search Example.data Example.metadata_with_gap
           Example.search_rows).
  vm_compute. reflexivity.
Defined.

(** The second entry of a first run over the two filings. *)
Lemma staged_entries_rehydrate_witness :
  corpus_well_formed Example.data = true /\
  Example.entry 1 "0002" ∈ data_entries ∅ 0 Example.data /\
  exists record chunks text,
    open_filing Example.data "AAPL" (Some "0002"%string) = Ok record /\
    chunk_text (rec_text record) CHUNK_SIZE CHUNK_OVERLAP = Returns chunks /\
    chunks !! 0%nat = Some text /\
    load_chunk_text Example.data (Example.entry 1 "0002") = Returns text /\
    "2024-01-31"%string = rec_filing_date record /\
    Some "10-K"%string = rec_form record /\
    key_of (Example.entry 1 "0002") ∉ (∅ : gset ChunkKey).
Proof.
  assert (Hin : Example.entry 1 "0002" ∈ data_entries ∅ 0 Example.data).
  { apply list_elem_of_lookup_2 with 1%nat. vm_compute. reflexivity. }
  split; [vm_compute; reflexivity|]. split; [exact Hin|].
  apply (staged_entries_rehydrate ∅ 0 Example.data (Example.entry 1 "0002")).
  - vm_compute. reflexivity.
  - exact Hin.
Defined.

(** A first run over the two filings, then a search that returns an id
    beyond the store, a padding row and the two stored ids. *)
Lemma fresh_store_answers_every_row_witness :
  (metadata_file Example.no_files = None \/ index_file Example.no_files = None) /\
  corpus_well_formed Example.data = true /\
  exists st1,
    update_embeddings Example.eager Example.embed_ok Example.data Example.no_files
      = Next st1 /\
    exists rs,
      retrieve_hits Example.data (metadata st1) Example.search_rows_short
        = Next rs /\
      warnings rs = [] /\
      derefs rs = (filter (in_range (metadata st1))
                     Example.search_rows_short).*1 /\
      Forall2 (fun (h : Hit) (row : Z * float) =>
                 hit_id h = row.1 /\ hit_score h = row.2 /\
                 exists entry,
                   metadata st1 !! Z.to_nat row.1 = Some entry /\
                   key_of entry = (hit_ticker h, hit_accession h, hit_chunk_index h) /\
                   load_chunk_text Example.data entry = Returns (hit_text h))
        (hits rs) (filter (in_range (metadata st1)) Example.search_rows_short).
Proof.
  split; [left; reflexivity|]. split; [vm_compute; reflexivity|].
  eexists. split; [vm_compute; reflexivity|].
  apply (fresh_store_answers_every_row Example.eager Example.embed_ok Example.data
           Example.no_files).
  - left. reflexivity.
  - vm_compute. reflexivity.
  - vm_compute. reflexivity.
Defined.

Example fresh_store_hits :
  match update_embeddings Example.eager Example.embed_ok Example.data Example.no_files with
  | Next st1 =>
      match retrieve_hits Example.data (metadata st1) Example.search_rows_short with
      | Next rs => hit_text <$> hits rs = ["services grew"; "net sales rose"]%string
      | _ => False
      end
  | _ => False
  end.
Proof. vm_compute. done. Qed.

(** The retriever of the builder module over the same metadata: an id
    beyond the store raises, where [query_rag.py] skips the row. *)
Example builder_retrieve_raises_beyond_store :
  IncrementalChunkEmbed.retrieve_loop Example.metadata_with_gap [1; -1; 5; 0] []
    = Fails IndexError /\
  IncrementalChunkEmbed.retrieve_loop Example.metadata_with_gap [1; -1; 0] []
    = Ok [Example.entry 1 "0009"; Example.entry 0 "0001"].
Proof. split; reflexivity. Qed.

(** Seven tokens in windows of three with one token of overlap. *)
Lemma chunk_text_covers_witness :
  0 <= 1 < 3 /\
  exists chunks : list (list token),
    chunk_text "abcdefg" 3 1 = Returns (decode <$> chunks) /\
    stitch 1 chunks = encode "abcdefg" /\
    (forall j c, chunks !! S j = Some c -> 1 < Z.of_nat (length c)) /\
    Z.of_nat (length chunks) = chunk_count (Z.of_nat (length (encode "abcdefg"))) 3 1.
Proof.
  split; [lia|]. apply (chunk_text_covers "abcdefg" 3 1). lia.
Defined.

Example chunk_text_three_windows :
  chunk_text "abcdefg" 3 1 = Returns ["abc"; "cde"; "efg"]%string /\
  chunk_count 7 3 1 = 3.
Proof. split; reflexivity. Qed.

(** A question over the store of a first run over the two filings, with a
    chat model that answers with the message it was sent. *)
Lemma answer_rag_over_fresh_store_witness :
  (metadata_file Example.no_files = None \/ index_file Example.no_files = None) /\
  corpus_well_formed Example.data = true /\
  Example.embed_ok 0%nat ["sales"%string] = Some [[1; 0]] /\
  exists st1,
    update_embeddings Example.eager Example.embed_ok Example.data Example.no_files
      = Next st1 /\
    metadata st1 <> [] /\
    exists ix hits contexts,
      disk st1 = mkDisk (Some ix) (Some (metadata st1)) /\
      IncrementalChunkEmbed.retrieve Example.search Example.embed_ok (disk st1)
        "sales" 5 = Ok hits /\
      hits = omap (fun vid => if vid <? 0 then None
                              else metadata st1 !! Z.to_nat vid)
               (Example.search ix (normalize_L2 [1; 0]) 5).*1 /\
      Forall2 (fun h c => load_chunk_text Example.data h = Returns c) hits contexts /\
      IncrementalChunkEmbed.answer_rag Example.search
        (fun _ _ user => Some user) Example.embed_ok Example.data (disk st1) "sales" 5
      = (Returns ("Context:" ++ nl ++ join context_separator contexts
                    ++ nl ++ nl ++ "Q: " ++ "sales")%string, 1%nat).
Proof.
  split; [left; reflexivity|]. split; [vm_compute; reflexivity|].
  split; [reflexivity|].
  eexists. split; [vm_compute; reflexivity|]. split; [discriminate|].
  apply (answer_rag_over_fresh_store Example.search (fun _ _ user => Some user)
           Example.eager Example.embed_ok Example.embed_ok Example.data
           Example.no_files _ "sales" 5 [1; 0] []).
  - left. reflexivity.
  - vm_compute. reflexivity.
  - vm_compute. reflexivity.
  - discriminate.
  - reflexivity.
  - intros ix vid [= <-] Hin. vm_compute in Hin.
    apply elem_of_cons in Hin as [-> | Hin]; [right; vm_compute; set_solver|].
    apply elem_of_cons in Hin as [-> | Hin]; [right; vm_compute; set_solver|].
    apply elem_of_cons in Hin as [-> | Hin]; [by left|].
    by apply elem_of_nil in Hin.
Defined.

Example answer_rag_without_a_hit_still_asks :
  IncrementalChunkEmbed.answer_rag (fun _ _ _ => [(-1, 0)])
    (fun _ _ user => Some user) Example.embed_ok Example.data Example.disk_one "sales" 5
  = (Returns ("Context:" ++ nl ++ nl ++ nl ++ "Q: sales")%string, 1%nat).
Proof. reflexivity. Qed.

Example ask_without_a_hit_is_404 :
  Api.ask (fun _ _ _ => [(-1, 0); (7, 3)]) (fun _ => true)
    (fun _ _ user => Some user) Example.embed_ok Example.data Example.disk_one
    (Api.mkAsk "sales" 5 "key" "gpt-4o")
  = (Api.HTTPException 404 "No relevant chunks found.", 0%nat).
Proof. reflexivity. Qed.

Example ask_answers_from_the_hit :
  Api.ask Example.search (fun _ => true)
    (fun _ _ user => Some user) Example.embed_ok Example.data Example.disk_one
    (Api.mkAsk "sales" 5 "key" "gpt-4o")
  = (Api.AskResponse
       ("Context:" ++ nl ++ "net sales rose" ++ nl ++ nl ++ "Question: sales")%string
       [Api.mkContext "AAPL" "0001" 0 "2024-01-31" 1 "net sales rose" "10-K"
          "0000320193" "https://www.sec.gov/"],
     1%nat).
Proof. vm_compute. reflexivity. Qed.
